(** * Instance lifecycle of the player (src/Instance.ts)

    A shallow embedding of the [Instance] class: its fields, its synchronous
    methods ([play], [pause], [seekTo], [setVolume], [setError],
    [canAutoplay], [destroy], [getModule], [on], [once], [removeListener],
    [emit]) and its asynchronous [init], which is cut at every [await] into
    the code that runs between two suspension points.

    Conventions.
    - A JavaScript reference that may be [null] or [undefined] is an
      [option]; dereferencing [None] throws a [TypeError].
    - The collaborators that [init] awaits (the polyfill import, [getEnv],
      [createFirstSupported], [createAllSupported], [selectMedia], the
      controller's [boot] and [load]) are not part of the file: the way each
      of them settles is an input of the model.
    - Every call that leaves the Instance is appended to a log, so that
      "is invoked", "is emitted" and "before" are statements about the log. *)

From Stdlib Require Import String List Bool Arith Lia PrimFloat.
Import ListNotations.
Open Scope string_scope.
Open Scope list_scope.

Set Implicit Arguments.

(** ** Values that cross the boundary of the class *)

(** What [Module] of [@src/Module] exposes to this file: its [name]; [uid]
    stands for the identity of the object.  [Controller], [Player] and
    [Media] are subclasses of it. *)
Record ModuleT := { mname : string; uid : nat }.

Definition Controller := ModuleT.
Definition Player := ModuleT.
Definition Media := ModuleT.

(** Modelled from the spec: [Format] of [@src/types] is not in src/; a
    source descriptor is "URL + type hint", and the selected format is the
    descriptor that the media backend accepted. *)
Record Format := { format_type : string; format_src : string }.

(** Modelled from the spec: [Env] of [@src/types]; the snapshot is
    "{ canAutoplay: bool, ...capability flags }" and [Instance.ts] reads
    [canAutoplay] only. *)
Record Env := { env_canAutoplay : bool }.

(** The fields of [Config] that [Instance.ts] reads. *)
Record Config := {
  sources : list Format;
  autoplay : bool;
  ignorePolyfills : bool
}.

(** The members of [ErrorCodes] that [Instance.ts] uses. *)
Inductive ErrorCodes := NO_SUPPORTED_FORMAT_FOUND | CONTROLLER_LOAD_FAILED.

(** Values that are thrown, or that a promise is rejected with.
    [TypeError what] is the runtime's error for reading a property of [null]
    or [undefined] (or spreading it); [what] names the reference.
    [Rejection r] is an error produced by a collaborator.
    [PlayerError code cause] is [new PlayerError(code, cause)]. *)
#[local] Set Warnings "-register-all".
Inductive Exn :=
| TypeError (what : string)
| Rejection (reason : nat)
| PlayerError (code : ErrorCodes) (underlyingError : option Exn).
#[local] Set Warnings "register-all".

(** The members of [Events] that [Instance.ts] emits; any other name a
    caller subscribes to is [OTHER]. *)
Inductive EventName := ERROR | READY | DESTROY | OTHER (n : string).

Definition event_eqb (a b : EventName) : bool :=
  match a, b with
  | ERROR, ERROR | READY, READY | DESTROY, DESTROY => true
  | OTHER x, OTHER y => String.eqb x y
  | _, _ => false
  end.

(** A listener registered on the emitter; [l_cb] identifies the callback. *)
Record Listener := { l_event : EventName; l_cb : nat; l_once : bool }.

(** The root container: the class names of its children and whether it is
    attached to the host element. *)
Record Container := { children : list string; attached : bool }.

(** ** The Instance *)

Record Instance := {
  config : Config;
  container : Container;
  env : option Env;
  controller : option Controller;
  player : option Player;
  media : option Media;
  format : option Format;
  extensions : option (list ModuleT);
  emitter : list Listener
}.

(** The synchronous calls the Instance makes on its controller. *)
Inductive ControllerOp :=
| op_play | op_pause | op_seekTo (time : float) | op_setVolume (volume : float)
| op_unload.

(** The awaited steps of [init], in the order they appear in it. *)
Inductive Stage :=
| Polyfills | GetEnv | ResolveController | BootController
| ResolveExtensions | ResolvePlayer | SelectMedia | LoadController.

(** The log of what the Instance did to the outside. *)
Inductive Effect :=
| Begin (s : Stage)                     (* the awaited operation is called *)
| Completed (s : Stage)                 (* its promise settled, [init] resumes *)
| ControllerCall (op : ControllerOp)
| Emitted (name : EventName) (data : option Exn) (notified : list nat).

(** Where [init] is suspended. *)
Inductive Pc :=
| NotStarted
| Awaiting (s : Stage)
| Returned
| Failed (e : Exn).                     (* the promise of [init] is rejected *)

(** The lifecycle states of the spec.  The class has no such field: the tag
    is ghost state, set where the spec places the transition. *)
Inductive State := Constructing | Initializing | Ready | Error | Destroyed.

Record Machine := {
  this : Instance;
  log : list Effect;
  pc : Pc;
  phase : State
}.

(** ** A state and exception monad for the method bodies *)

Inductive Completion (A : Type) :=
| Normal (a : A)
| Throw (e : Exn).
Arguments Throw {A} e.

Definition M (A : Type) := Machine -> Completion A * Machine.

Definition ret {A} (a : A) : M A := fun m => (Normal a, m).

Definition bind {A B} (c : M A) (k : A -> M B) : M B :=
  fun m => match c m with
           | (Normal a, m') => k a m'
           | (Throw e, m') => (Throw e, m')
           end.

Definition throw {A} (e : Exn) : M A := fun m => (Throw e, m).

Notation "x <- c ;; k" := (bind c (fun x => k))
  (at level 61, c at next level, right associativity).
Notation "c ;; k" := (bind c (fun _ => k))
  (at level 61, right associativity).

Definition get {A} (f : Instance -> A) : M A := fun m => (Normal (f (this m)), m).

Definition update (f : Instance -> Instance) : M unit :=
  fun m => (Normal tt,
            {| this := f (this m); log := log m; pc := pc m; phase := phase m |}).

(** Ghost: the lifecycle transition of the spec. *)
Definition transition (s : State) : M unit :=
  fun m => (Normal tt,
            {| this := this m; log := log m; pc := pc m; phase := s |}).

Definition tell (e : Effect) : M unit :=
  fun m => (Normal tt,
            {| this := this m; log := (log m ++ [e]); pc := pc m;
               phase := phase m |}).

(** [this.f.something]: read the reference, fail on [null]/[undefined]. *)
Definition deref {A} (f : Instance -> option A) (what : string) : M A :=
  r <- get f ;;
  match r with
  | Some a => ret a
  | None => throw (TypeError what)
  end.

(** Field assignments. *)
Definition set_container (v : Container) (i : Instance) : Instance :=
  {| config := config i; container := v; env := env i;
     controller := controller i; player := player i; media := media i;
     format := format i; extensions := extensions i; emitter := emitter i |}.
Definition set_env (v : option Env) (i : Instance) : Instance :=
  {| config := config i; container := container i; env := v;
     controller := controller i; player := player i; media := media i;
     format := format i; extensions := extensions i; emitter := emitter i |}.
Definition set_controller (v : option Controller) (i : Instance) : Instance :=
  {| config := config i; container := container i; env := env i;
     controller := v; player := player i; media := media i;
     format := format i; extensions := extensions i; emitter := emitter i |}.
Definition set_player (v : option Player) (i : Instance) : Instance :=
  {| config := config i; container := container i; env := env i;
     controller := controller i; player := v; media := media i;
     format := format i; extensions := extensions i; emitter := emitter i |}.
Definition set_media (v : option Media) (i : Instance) : Instance :=
  {| config := config i; container := container i; env := env i;
     controller := controller i; player := player i; media := v;
     format := format i; extensions := extensions i; emitter := emitter i |}.
Definition set_format (v : option Format) (i : Instance) : Instance :=
  {| config := config i; container := container i; env := env i;
     controller := controller i; player := player i; media := media i;
     format := v; extensions := extensions i; emitter := emitter i |}.
Definition set_extensions (v : option (list ModuleT)) (i : Instance) : Instance :=
  {| config := config i; container := container i; env := env i;
     controller := controller i; player := player i; media := media i;
     format := format i; extensions := v; emitter := emitter i |}.
Definition set_emitter (v : list Listener) (i : Instance) : Instance :=
  {| config := config i; container := container i; env := env i;
     controller := controller i; player := player i; media := media i;
     format := format i; extensions := extensions i; emitter := v |}.

(** ** The event surface (eventemitter3) *)

Definition listens (name : EventName) (l : Listener) : bool :=
  event_eqb (l_event l) name.

(** [on = (name, callback) => this.emitter.on(name, callback)] *)
Definition on (name : EventName) (callback : nat) : M unit :=
  ls <- get emitter ;;
  update (set_emitter
            (ls ++ [{| l_event := name; l_cb := callback; l_once := false |}])).

(** [once = (name, callback) => this.emitter.once(name, callback)] *)
Definition once (name : EventName) (callback : nat) : M unit :=
  ls <- get emitter ;;
  update (set_emitter
            (ls ++ [{| l_event := name; l_cb := callback; l_once := true |}])).

(** [removeListener = (name, callback) =>
      this.emitter.removeListener(name, callback)] *)
Definition removeListener (name : EventName) (callback : nat) : M unit :=
  ls <- get emitter ;;
  update (set_emitter
            (filter (fun l => negb (listens name l && Nat.eqb (l_cb l) callback))
                    ls)).

(** What is left of the subscribers after [name] was emitted. *)
Definition after_emit (name : EventName) (hs : list Listener) : list Listener :=
  filter (fun l => negb (listens name l && l_once l)) hs.

(** The callbacks that an emission of [name] reaches. *)
Definition heard (name : EventName) (hs : list Listener) : list nat :=
  map l_cb (filter (listens name) hs).

(** [emit = (name, eventData?) => this.emitter.emit(name, eventData)]:
    the listeners of [name] are called in the order they were registered,
    those registered with [once] are dropped; the result tells whether the
    event had a listener.  Callbacks are opaque: they are recorded, not
    run. *)
Definition emit (name : EventName) (eventData : option Exn) : M bool :=
  ls <- get emitter ;;
  update (set_emitter (after_emit name ls)) ;;
  tell (Emitted name eventData (heard name ls)) ;;
  ret (negb (Nat.eqb (length (heard name ls)) 0)).

(** ** Playback operations *)

(** [this.controller.<op>(...)] *)
Definition controller_call (op : ControllerOp) : M unit :=
  _ <- deref controller "controller" ;;
  tell (ControllerCall op).

(** [play() { this.controller.play(); }] *)
Definition play : M unit := controller_call op_play.

(** [pause() { this.controller.pause(); }] *)
Definition pause : M unit := controller_call op_pause.

(** [seekTo(time) { this.controller.seekTo(time); }] *)
Definition seekTo (time : float) : M unit := controller_call (op_seekTo time).

(** [setVolume(volume) { this.controller.setVolume(volume); }] *)
Definition setVolume (volume : float) : M unit :=
  controller_call (op_setVolume volume).

(** [setError(error) { this.controller.unload();
                       this.emit(Events.ERROR, { error }); }] *)
Definition setError (error : Exn) : M unit :=
  controller_call op_unload ;;
  emit ERROR (Some error) ;;
  ret tt.

(** [canAutoplay() { return this.config.autoplay && this.env.canAutoplay; }]
    [&&] reads [this.env] only when [autoplay] is true. *)
Definition canAutoplay : M bool :=
  cfg <- get config ;;
  if autoplay cfg
  then e <- deref env "env" ;; ret (env_canAutoplay e)
  else ret false.

(** The loop [while (div.firstChild) div.removeChild(div.firstChild)]. *)
Fixpoint remove_children (nodes : list string) : list string :=
  match nodes with
  | [] => []
  | _ :: rest => remove_children rest
  end.

(** [destroy()] *)
Definition destroy : M unit :=
  emit DESTROY None ;;
  update (set_emitter []) ;;                     (* removeAllListeners() *)
  controller_call op_unload ;;
  update (set_controller None) ;;
  update (set_player None) ;;
  update (set_format None) ;;
  update (set_media None) ;;
  div <- get container ;;
  update (set_container {| children := remove_children (children div);
                           attached := attached div |}) ;;
  div' <- get container ;;
  update (set_container {| children := children div'; attached := false |}) ;;
  transition Destroyed.

(** [find(modules, { name })] of lodash: the first element that is not
    [null]/[undefined] and whose [name] is [name]. *)
Fixpoint find (modules : list (option ModuleT)) (name : string)
  : option ModuleT :=
  match modules with
  | [] => None
  | Some md :: rest => if String.eqb (mname md) name then Some md
                       else find rest name
  | None :: rest => find rest name
  end.

(** [getModule(name)]: spreading [this.extensions] throws while it is
    [undefined]. *)
Definition getModule (name : string) : M (option ModuleT) :=
  exts <- deref extensions "extensions" ;;
  c <- get controller ;;
  md <- get media ;;
  p <- get player ;;
  let modules := (map Some exts ++ [c; md; p]) in
  ret (find modules name).

(** ** Construction and [init] *)

(** How an awaited promise settles. *)
Inductive Result (A : Type) :=
| Fulfilled (a : A)
| Rejected (e : Exn).
Arguments Rejected {A} e.

(** [await p]: a rejection is rethrown at the [await]. *)
Definition awaited {A} (r : Result A) : M A :=
  match r with
  | Fulfilled a => ret a
  | Rejected e => throw e
  end.

(** Calling the operation of stage [s] and suspending on its promise. *)
Definition suspend (s : Stage) : M Pc := tell (Begin s) ;; ret (Awaiting s).

(** [try { c } catch (error) { h error }] *)
Definition try_catch {A} (c : M A) (h : Exn -> M A) : M A :=
  fun m => match c m with
           | (Throw e, m') => h e m'
           | r => r
           end.

(** [init], from its entry to the first [await]. *)
Definition init (cfg : Config) : M Pc :=
  transition Initializing ;;
  if negb (ignorePolyfills cfg)
  then suspend Polyfills                 (* await import('ts-polyfill') *)
  else suspend GetEnv.                   (* this.env = await getEnv() *)

Definition after_polyfills (r : Result unit) : M Pc :=
  awaited r ;;
  suspend GetEnv.

Definition after_getEnv (r : Result Env) : M Pc :=
  e <- awaited r ;;
  update (set_env (Some e)) ;;
  suspend ResolveController.             (* createFirstSupported(CONTROLLER) *)

Definition after_controller (r : Result Controller) : M Pc :=
  c <- awaited r ;;
  update (set_controller (Some c)) ;;
  deref controller "controller" ;;
  suspend BootController.                (* await this.controller.boot() *)

Definition after_boot (r : Result unit) : M Pc :=
  awaited r ;;
  suspend ResolveExtensions.             (* createAllSupported(EXTENSION) *)

Definition after_extensions (r : Result (list ModuleT)) : M Pc :=
  l <- awaited r ;;
  update (set_extensions (Some l)) ;;
  suspend ResolvePlayer.                 (* createFirstSupported(PLAYER) *)

Definition after_player (r : Result Player) : M Pc :=
  p <- awaited r ;;
  update (set_player (Some p)) ;;
  suspend SelectMedia.                   (* selectMedia(this, config.sources) *)

(** The [catch] block around [await this.controller.load()]. *)
Definition load_failed (error : Exn) : M Pc :=
  setError (PlayerError CONTROLLER_LOAD_FAILED (Some error)) ;;
  transition Error ;;
  ret Returned.

Definition after_selectMedia (r : Result (option Format * option Media))
  : M Pc :=
  fm <- awaited r ;;
  let (fmt, md) := fm in
  match md with
  | None =>                              (* if (!media) *)
      setError (PlayerError NO_SUPPORTED_FORMAT_FOUND None) ;;
      transition Error ;;
      ret Returned
  | Some _ =>
      update (set_format fmt) ;;
      update (set_media md) ;;
      try_catch
        (deref controller "controller" ;;
         suspend LoadController)         (* await this.controller.load() *)
        load_failed
  end.

Definition after_load (r : Result unit) : M Pc :=
  match r with
  | Rejected error => load_failed error
  | Fulfilled _ =>
      emit READY None ;;
      transition Ready ;;
      auto <- canAutoplay ;;
      (if auto then play else ret tt) ;;
      ret Returned
  end.

Definition with_pc (p : Pc) (m : Machine) : Machine :=
  {| this := this m; log := log m; pc := p; phase := phase m |}.

(** The machine after the effects [l]. *)
Definition logged (l : list Effect) (m : Machine) : Machine :=
  {| this := this m; log := log m ++ l; pc := pc m; phase := phase m |}.

(** Runs a piece of [init]; an exception that escapes it rejects the
    promise of [init]. *)
Definition run_init (k : M Pc) (m : Machine) : Machine :=
  match k m with
  | (Normal p, m') => with_pc p m'
  | (Throw e, m') => with_pc (Failed e) m'
  end.

(** [createContainers(element)] *)
Definition createContainers : M unit :=
  update (set_container {| children := ["ig-player"; "ig-ads"; "ig-ui"];
                           attached := true |}).

(** [new Instance(element, config)]: the constructor returns when [init]
    reaches its first [await]. *)
Definition new_Instance (cfg : Config) : Machine :=
  run_init
    (createContainers ;;
     update (set_emitter []) ;;
     init cfg)
    {| this := {| config := cfg;
                  container := {| children := []; attached := false |};
                  env := None; controller := None; player := None;
                  media := None; format := None; extensions := None;
                  emitter := [] |};
       log := []; pc := NotStarted; phase := Constructing |}.

(** ** The Instance as a transition system *)

(** The settlement of the promise [init] is suspended on.

    Modelled from the spec: [createFirstSupported] and [createAllSupported]
    of [@src/ModuleLoader] and [getEnv] of [@src/utils/getEnv] are not in
    src/.  [resolveFirst] "constructs and returns an instance ...; if no
    candidate is supported, fails", so its promise is fulfilled with a
    module or rejected; [resolveAll] "returns an empty sequence (not a
    failure) if none are supported"; the snapshot provider produces an
    [Env].  [selectMedia] answers with the pair that [init] destructures,
    either component of which may be null. *)
Inductive Settlement :=
| polyfills_settled (r : Result unit)
| getEnv_settled (r : Result Env)
| controller_settled (r : Result Controller)
| boot_settled (r : Result unit)
| extensions_settled (r : Result (list ModuleT))
| player_settled (r : Result Player)
| selectMedia_settled (r : Result (option Format * option Media))
| load_settled (r : Result unit).

Definition stage_of (s : Settlement) : Stage :=
  match s with
  | polyfills_settled _ => Polyfills
  | getEnv_settled _ => GetEnv
  | controller_settled _ => ResolveController
  | boot_settled _ => BootController
  | extensions_settled _ => ResolveExtensions
  | player_settled _ => ResolvePlayer
  | selectMedia_settled _ => SelectMedia
  | load_settled _ => LoadController
  end.

Definition continuation (s : Settlement) : M Pc :=
  match s with
  | polyfills_settled r => after_polyfills r
  | getEnv_settled r => after_getEnv r
  | controller_settled r => after_controller r
  | boot_settled r => after_boot r
  | extensions_settled r => after_extensions r
  | player_settled r => after_player r
  | selectMedia_settled r => after_selectMedia r
  | load_settled r => after_load r
  end.

Definition stage_index (s : Stage) : nat :=
  match s with
  | Polyfills => 0 | GetEnv => 1 | ResolveController => 2
  | BootController => 3 | ResolveExtensions => 4 | ResolvePlayer => 5
  | SelectMedia => 6 | LoadController => 7
  end.

Definition stage_eqb (a b : Stage) : bool :=
  Nat.eqb (stage_index a) (stage_index b).

Definition suspended_on (s : Stage) (m : Machine) : bool :=
  match pc m with
  | Awaiting s' => stage_eqb s s'
  | _ => false
  end.

(** [init] resumes when the promise it awaits settles; a settlement for a
    promise that is not pending does not exist. *)
Definition resume (s : Settlement) (m : Machine) : option Machine :=
  if suspended_on (stage_of s) m
  then Some (run_init (tell (Completed (stage_of s)) ;; continuation s) m)
  else None.

(** The calls of the host page.  [emit] and [setError] are public as well,
    for the modules to report through; the host does not call them here, so
    that the events in the log are those the Instance emitted itself. *)
Inductive Call :=
| call_play | call_pause | call_seekTo (time : float)
| call_setVolume (volume : float)
| call_destroy
| call_getModule (name : string)
| call_on (name : EventName) (callback : nat)
| call_once (name : EventName) (callback : nat)
| call_removeListener (name : EventName) (callback : nat).

Definition invoke (c : Call) : M unit :=
  match c with
  | call_play => play
  | call_pause => pause
  | call_seekTo t => seekTo t
  | call_setVolume v => setVolume v
  | call_destroy => destroy
  | call_getModule name => getModule name ;; ret tt
  | call_on n cb => on n cb
  | call_once n cb => once n cb
  | call_removeListener n cb => removeListener n cb
  end.

Inductive Action :=
| Settle (s : Settlement)
| Invoke (c : Call).

Definition exec (a : Action) (m : Machine) : Machine :=
  match a with
  | Settle s => match resume s m with
                | Some m' => m'
                | None => m
                end
  | Invoke c => snd (invoke c m)
  end.

(** Modelled from the spec: [selectMedia] of [@src/selectMedia] is not in
    src/; it returns "the first (format, backend-instance) pair ... or a
    not-found sentinel (no pair)": both components or neither. *)
Definition selector_contract (r : option Format * option Media) : Prop :=
  fst r = None <-> snd r = None.

(** What the environment may do: [selectMedia] keeps its contract. *)
Definition environment_ok (a : Action) : Prop :=
  match a with
  | Settle (selectMedia_settled (Fulfilled r)) => selector_contract r
  | _ => True
  end.

(** The protocol of the spec for teardown: [destroy] is called once the
    bootstrap has ended in [Ready] or [Error] (or again after that). *)
Definition protocol_ok (a : Action) (m : Machine) : Prop :=
  match a with
  | Invoke call_destroy =>
      phase m = Ready \/ phase m = Error \/ phase m = Destroyed
  | _ => True
  end.

(** States of an Instance built with [cfg], whatever the host calls and
    whenever. *)
Inductive reachable_any (cfg : Config) : Machine -> Prop :=
| any_new : reachable_any cfg (new_Instance cfg)
| any_step m a :
    reachable_any cfg m -> environment_ok a -> reachable_any cfg (exec a m).

(** States of an Instance built with [cfg] whose host follows the
    protocol. *)
Inductive reachable (cfg : Config) : Machine -> Prop :=
| reach_new : reachable cfg (new_Instance cfg)
| reach_step m a :
    reachable cfg m -> environment_ok a -> protocol_ok a m ->
    reachable cfg (exec a m).

(** ** A whole bootstrap *)

(** How each collaborator answers during one bootstrap. *)
Record World := {
  w_polyfills : Result unit;
  w_getEnv : Result Env;
  w_controller : Result Controller;
  w_boot : Result unit;
  w_extensions : Result (list ModuleT);
  w_player : Result Player;
  w_selectMedia : Result (option Format * option Media);
  w_load : Result unit
}.

Definition settlement (w : World) (s : Stage) : Settlement :=
  match s with
  | Polyfills => polyfills_settled (w_polyfills w)
  | GetEnv => getEnv_settled (w_getEnv w)
  | ResolveController => controller_settled (w_controller w)
  | BootController => boot_settled (w_boot w)
  | ResolveExtensions => extensions_settled (w_extensions w)
  | ResolvePlayer => player_settled (w_player w)
  | SelectMedia => selectMedia_settled (w_selectMedia w)
  | LoadController => load_settled (w_load w)
  end.

(** One turn of the event loop: the pending promise settles. *)
Definition drive (w : World) (m : Machine) : Machine :=
  match pc m with
  | Awaiting s => exec (Settle (settlement w s)) m
  | _ => m
  end.

(** The host subscribes right after construction, before the first promise
    settles. *)
Definition subscribe (hs : list Listener) (m : Machine) : Machine :=
  fold_left
    (fun m' l => exec (Invoke (if l_once l
                               then call_once (l_event l) (l_cb l)
                               else call_on (l_event l) (l_cb l))) m')
    hs m.

(** A bootstrap observed by the subscribers [hs]: [init] has eight
    suspension points, so eight turns end it. *)
Definition bootstrap (cfg : Config) (hs : list Listener) (w : World)
  : Machine :=
  Nat.iter 8 (drive w) (subscribe hs (new_Instance cfg)).

(** ** Reading the log *)

Definition is_event (name : EventName) (e : Effect) : bool :=
  match e with
  | Emitted n _ _ => event_eqb n name
  | _ => false
  end.

Definition is_unload (e : Effect) : bool :=
  match e with
  | ControllerCall op_unload => true
  | _ => false
  end.

Definition is_play (e : Effect) : bool :=
  match e with
  | ControllerCall op_play => true
  | _ => false
  end.

Definition is_begin (s : Stage) (e : Effect) : bool :=
  match e with
  | Begin s' => stage_eqb s s'
  | _ => false
  end.

Definition is_stage_event (e : Effect) : bool :=
  match e with
  | Begin _ | Completed _ => true
  | _ => false
  end.

(** The events named [name] that were emitted, in order. *)
Definition events (name : EventName) (l : list Effect) : list Effect :=
  filter (is_event name) l.

(** The calls and settlements of the awaited operations, in order. *)
Definition stage_events (l : list Effect) : list Effect :=
  filter is_stage_event l.

(** The polyfills are imported unless the configuration says not to. *)
Definition prelude (cfg : Config) : list Effect :=
  if ignorePolyfills cfg then [] else [Begin Polyfills; Completed Polyfills].

(** The order of the awaited operations in the text of [init]. *)
Definition schedule (cfg : Config) : list Effect :=
  (prelude cfg ++
   [Begin GetEnv; Completed GetEnv;
    Begin ResolveController; Completed ResolveController;
    Begin BootController; Completed BootController;
    Begin ResolveExtensions; Completed ResolveExtensions;
    Begin ResolvePlayer; Completed ResolvePlayer;
    Begin SelectMedia; Completed SelectMedia;
    Begin LoadController; Completed LoadController]).

(** Stage [s] comes before stage [s'] in a bootstrap with [cfg]. *)
Definition earlier_stage (cfg : Config) (s s' : Stage) : Prop :=
  stage_index s < stage_index s' /\
  (s = Polyfills -> ignorePolyfills cfg = false).

(** ** The shape of a bootstrap *)

(** The log of a bootstrap up to the answer of [selectMedia]. *)
Definition upto_select (cfg : Config) : list Effect :=
  (prelude cfg ++
   [Begin GetEnv; Completed GetEnv;
    Begin ResolveController; Completed ResolveController;
    Begin BootController; Completed BootController;
    Begin ResolveExtensions; Completed ResolveExtensions;
    Begin ResolvePlayer; Completed ResolvePlayer;
    Begin SelectMedia; Completed SelectMedia]).

Definition built (cfg : Config) (e : Env) (c : Controller) (p : Player)
  (md : option Media) (f : option Format) (x : list ModuleT)
  (ls : list Listener) : Instance :=
  {| config := cfg;
     container := {| children := ["ig-player"; "ig-ads"; "ig-ui"];
                     attached := true |};
     env := Some e; controller := Some c; player := Some p;
     media := md; format := f; extensions := Some x; emitter := ls |}.

(** The collaborators answer well up to the media selector. *)
Definition answers_upto_select (cfg : Config) (w : World)
  (e : Env) (c : Controller) (x : list ModuleT) (p : Player) : Prop :=
  (ignorePolyfills cfg = false -> w_polyfills w = Fulfilled tt) /\
  w_getEnv w = Fulfilled e /\
  w_controller w = Fulfilled c /\
  w_boot w = Fulfilled tt /\
  w_extensions w = Fulfilled x /\
  w_player w = Fulfilled p.

(** [selectMedia] keeps its contract in [w]. *)
Definition world_ok (w : World) : Prop :=
  match w_selectMedia w with
  | Fulfilled r => selector_contract r
  | Rejected _ => True
  end.

(** ** What the spec says, in its own words *)

(** A reference as a list: empty when it is null. *)
Definition one (o : option ModuleT) : list ModuleT :=
  match o with Some x => [x] | None => [] end.

(** The modules that are currently resolved, in the order of the spec:
    "extensions first, then controller, media, player". *)
Definition resolved_modules (i : Instance) : list ModuleT :=
  match extensions i with Some l => l | None => [] end ++
  one (controller i) ++ one (media i) ++ one (player i).

(** "the first match or nothing". *)
Definition first_named (name : string) (l : list ModuleT) : option ModuleT :=
  List.find (fun md => String.eqb (mname md) name) l.



(** A bootstrap fails at the media-selection stage when the selector is
    reached and finds no media, at the controller-load stage when [load] is
    called and rejects. *)
Inductive fails_at (cfg : Config) (hs : list Listener) (w : World)
  : Stage -> Prop :=
| fails_at_select fmt :
    In (Begin SelectMedia) (log (bootstrap cfg hs w)) ->
    w_selectMedia w = Fulfilled (fmt, None) ->
    fails_at cfg hs w SelectMedia
| fails_at_load cause :
    In (Begin LoadController) (log (bootstrap cfg hs w)) ->
    w_load w = Rejected cause ->
    fails_at cfg hs w LoadController.

(** A bootstrap is successful when it ends in [Ready]. *)
Definition successful (cfg : Config) (hs : list Listener) (w : World) : Prop :=
  phase (bootstrap cfg hs w) = Ready.

(** ** Invariants *)

(** What holds of the references in each lifecycle state, for a host that
    follows the protocol. *)
Definition lifecycle_inv (m : Machine) : Prop :=
  let i := this m in
  match phase m with
  | Constructing => False
  | Initializing =>
      match pc m with
      | Awaiting s =>
          (2 <= stage_index s -> env i <> None) /\
          (stage_index s <= 2 -> controller i = None) /\
          (3 <= stage_index s -> controller i <> None) /\
          (5 <= stage_index s -> extensions i <> None) /\
          (6 <= stage_index s -> player i <> None) /\
          (stage_index s <= 6 -> format i = None /\ media i = None) /\
          (stage_index s = 7 -> format i <> None /\ media i <> None)
      | Failed _ => True
      | NotStarted | Returned => False
      end
  | Ready =>
      pc m = Returned /\ env i <> None /\
      controller i <> None /\ player i <> None /\
      format i <> None /\ media i <> None /\ extensions i <> None
  | Error =>
      pc m = Returned /\
      controller i <> None /\ player i <> None /\ extensions i <> None /\
      (format i = None <-> media i = None) /\
      existsb is_unload (log m) = true
  | Destroyed =>
      pc m = Returned /\
      controller i = None /\ player i = None /\
      format i = None /\ media i = None /\ extensions i <> None /\
      existsb is_unload (log m) = true
  end.

(** The format and the media are set together, and not before the media
    selector has answered. *)
Definition pair_inv (m : Machine) : Prop :=
  (format (this m) = None <-> media (this m) = None) /\
  (forall s, pc m = Awaiting s -> stage_index s <= stage_index SelectMedia ->
             format (this m) = None /\ media (this m) = None).

(** The number of entries of the schedule that are logged while [init] is
    suspended on stage [s]. *)
Definition progress (cfg : Config) (s : Stage) : nat :=
  if ignorePolyfills cfg then 2 * stage_index s - 1 else 2 * stage_index s + 1.

Definition stage_inv (cfg : Config) (m : Machine) : Prop :=
  exists n,
    stage_events (log m) = firstn n (schedule cfg) /\
    match pc m with
    | NotStarted => False
    | Awaiting s =>
        n = progress cfg s /\ (s = Polyfills -> ignorePolyfills cfg = false)
    | Returned | Failed _ => True
    end.

(** ** Introspection *)

(** The object [getStats()] returns: a pair [[name, module]] for the
    controller, the media and the player, and one for each extension. *)
Record Stats := {
  stats_controller : string * Controller;
  stats_media : string * Media;
  stats_player : string * Player;
  stats_extensions : list (string * ModuleT)
}.

(** [[module.name, module]] *)
Definition entry (md : ModuleT) : string * ModuleT := (mname md, md).

(** [getStats()]: the members of the object literal are evaluated in the
    order they are written, each one reading its reference. *)
Definition getStats : M Stats :=
  c <- deref controller "controller" ;;
  md <- deref media "media" ;;
  p <- deref player "player" ;;
  x <- deref extensions "extensions" ;;
  ret {| stats_controller := entry c;
         stats_media := entry md;
         stats_player := entry p;
         stats_extensions := map entry x |}.

(** All the pairs of a [Stats], extensions first. *)
Definition stats_entries (st : Stats) : list (string * ModuleT) :=
  stats_extensions st ++
  [stats_controller st; stats_media st; stats_player st].

(** ** Failures that [init] does not catch *)

Definition cause {A} (r : Result A) : option Exn :=
  match r with
  | Fulfilled _ => None
  | Rejected e => Some e
  end.

Fixpoint first_some {A} (l : list (option A)) : option A :=
  match l with
  | [] => None
  | Some a :: _ => Some a
  | None :: rest => first_some rest
  end.

(** The awaits of [init] that are outside its [try]: the first of them to
    reject, in the order of the text. *)
Definition first_rejection (cfg : Config) (w : World) : option Exn :=
  first_some
    ((if ignorePolyfills cfg then [] else [cause (w_polyfills w)]) ++
     [cause (w_getEnv w); cause (w_controller w); cause (w_boot w);
      cause (w_extensions w); cause (w_player w); cause (w_selectMedia w)]).

(** ** More invariants *)

(** The container as [createContainers] builds it. *)
Definition created : Container :=
  {| children := ["ig-player"; "ig-ads"; "ig-ui"]; attached := true |}.

(** The container as [destroy] leaves it. *)
Definition removed : Container := {| children := []; attached := false |}.

Definition container_inv (m : Machine) : Prop :=
  match phase m with
  | Destroyed => container (this m) = removed
  | _ => container (this m) = created
  end.

(** The configuration is never written, and the snapshot is there from the
    moment [getEnv] has answered. *)
Definition snapshot_inv (cfg : Config) (m : Machine) : Prop :=
  config (this m) = cfg /\
  match pc m with
  | Awaiting s =>
      (stage_index s <= stage_index GetEnv -> env (this m) = None) /\
      (stage_index ResolveController <= stage_index s -> env (this m) <> None)
  | Returned => env (this m) <> None
  | NotStarted | Failed _ => True
  end.

(** ** Concrete instances used as examples *)

Module Sample.

Definition hls : Format := {| format_type := "hls"; format_src := "a.m3u8" |}.
Definition cfg : Config :=
  {| sources := [hls]; autoplay := true; ignorePolyfills := false |}.
Definition ctl : Controller := {| mname := "BaseController"; uid := 1 |}.
Definition plr : Player := {| mname := "HTML5Player"; uid := 2 |}.
Definition med : Media := {| mname := "HlsMedia"; uid := 3 |}.
Definition ui : ModuleT := {| mname := "UiExtension"; uid := 4 |}.

(** Every collaborator succeeds. *)
Definition fine : World :=
  {| w_polyfills := Fulfilled tt;
     w_getEnv := Fulfilled {| env_canAutoplay := true |};
     w_controller := Fulfilled ctl;
     w_boot := Fulfilled tt;
     w_extensions := Fulfilled [ui];
     w_player := Fulfilled plr;
     w_selectMedia := Fulfilled (Some hls, Some med);
     w_load := Fulfilled tt |}.

(** No source is playable. *)
Definition unplayable : World :=
  {| w_polyfills := Fulfilled tt;
     w_getEnv := Fulfilled {| env_canAutoplay := true |};
     w_controller := Fulfilled ctl;
     w_boot := Fulfilled tt;
     w_extensions := Fulfilled [ui];
     w_player := Fulfilled plr;
     w_selectMedia := Fulfilled (None, None);
     w_load := Fulfilled tt |}.

(** The controller fails to load. *)
Definition load_fails : World :=
  {| w_polyfills := Fulfilled tt;
     w_getEnv := Fulfilled {| env_canAutoplay := true |};
     w_controller := Fulfilled ctl;
     w_boot := Fulfilled tt;
     w_extensions := Fulfilled [ui];
     w_player := Fulfilled plr;
     w_selectMedia := Fulfilled (Some hls, Some med);
     w_load := Rejected (Rejection 7) |}.

(** Two subscribers: one on [ready], one (once) on [error]. *)
Definition hosts : list Listener :=
  [{| l_event := READY; l_cb := 10; l_once := false |};
   {| l_event := ERROR; l_cb := 11; l_once := true |}].

End Sample.

(** * Properties *)

(** ** Subscribing *)

Lemma subscribe_spec (hs : list Listener) (m : Machine) :
  subscribe hs m =
  {| this := set_emitter (emitter (this m) ++ hs) (this m);
     log := log m; pc := pc m; phase := phase m |}.
Proof.
  revert m.
  induction hs as [|h hs IH]; intros [[c k e ct p md f x em] lg q ph].
  - cbn. now rewrite app_nil_r.
  - unfold subscribe. simpl fold_left. fold (subscribe hs).
    rewrite IH. destruct h as [n cb [|]]; cbn; now rewrite <- app_assoc.
Qed.

Lemma subscribe_new (cfg : Config) (hs : list Listener) :
  subscribe hs (new_Instance cfg) =
  {| this := set_emitter hs (this (new_Instance cfg));
     log := log (new_Instance cfg);
     pc := pc (new_Instance cfg);
     phase := Initializing |}.
Proof.
  rewrite subscribe_spec. destruct cfg as [s a [|]]; reflexivity.
Qed.

(** ** The three ways a bootstrap ends once the media selector is reached *)

Lemma begun_existsb (s : Stage) (l : list Effect) :
  In (Begin s) l -> existsb (is_begin s) l = true.
Proof.
  intros H. apply existsb_exists. exists (Begin s). split; [exact H|].
  destruct s; reflexivity.
Qed.

(** A rejected promise ends the bootstrap before the stage in [Hin]. *)
Ltac stopped_early Hin := exfalso; vm_compute in Hin; discriminate Hin.

Lemma select_reached (cfg : Config) (hs : list Listener) (w : World) :
  In (Begin SelectMedia) (log (bootstrap cfg hs w)) ->
  exists e c x p, answers_upto_select cfg w e c x p.
Proof.
  unfold bootstrap, answers_upto_select. rewrite subscribe_new.
  destruct cfg as [srcs ap ip], w as [wp we wc wb wx wpl ws wl].
  intros Hin. apply begun_existsb in Hin. cbn [ignorePolyfills
    w_polyfills w_getEnv w_controller w_boot w_extensions w_player].
  assert (Hp : ip = false -> wp = Fulfilled tt).
  { intros ->. destruct wp as [[]|?]; [reflexivity | stopped_early Hin]. }
  destruct ip; [clear Hp | rewrite (Hp eq_refl) in Hin].
  all: destruct we as [e|?]; [|stopped_early Hin].
  all: destruct wc as [c|?]; [|stopped_early Hin].
  all: destruct wb as [[]|?]; [|stopped_early Hin].
  all: destruct wx as [x|?]; [|stopped_early Hin].
  all: destruct wpl as [p|?]; [|stopped_early Hin].
  all: exists e, c, x, p; repeat split; auto; discriminate.
Qed.

Lemma load_reached (cfg : Config) (hs : list Listener) (w : World) :
  In (Begin LoadController) (log (bootstrap cfg hs w)) ->
  exists e c x p f md,
    answers_upto_select cfg w e c x p /\
    w_selectMedia w = Fulfilled (f, Some md).
Proof.
  unfold bootstrap, answers_upto_select. rewrite subscribe_new.
  destruct cfg as [srcs ap ip], w as [wp we wc wb wx wpl ws wl].
  intros Hin. apply begun_existsb in Hin. cbn [ignorePolyfills
    w_polyfills w_getEnv w_controller w_boot w_extensions w_player
    w_selectMedia].
  assert (Hp : ip = false -> wp = Fulfilled tt).
  { intros ->. destruct wp as [[]|?]; [reflexivity | stopped_early Hin]. }
  destruct ip; [clear Hp | rewrite (Hp eq_refl) in Hin].
  all: destruct we as [e|?]; [|stopped_early Hin].
  all: destruct wc as [c|?]; [|stopped_early Hin].
  all: destruct wb as [[]|?]; [|stopped_early Hin].
  all: destruct wx as [x|?]; [|stopped_early Hin].
  all: destruct wpl as [p|?]; [|stopped_early Hin].
  all: destruct ws as [[f [md|]]|?]; [|stopped_early Hin|stopped_early Hin].
  all: exists e, c, x, p, f, md; repeat split; auto; discriminate.
Qed.

Ltac known_world H :=
  destruct H as (Hp & He & Hc & Hb & Hx & Hpl);
  match goal with
  | cfg : Config, w : World |- _ =>
      destruct cfg as [srcs ap ip], w as [wp we wc wb wx wpl ws wl]
  end;
  cbn [ignorePolyfills w_polyfills w_getEnv w_controller w_boot w_extensions
       w_player w_selectMedia w_load] in *;
  subst;
  match goal with
  | Hp : ?ip = false -> _ |- _ =>
      destruct ip; [clear Hp | rewrite (Hp eq_refl); clear Hp]
  end.

Lemma bootstrap_no_media (cfg : Config) (hs : list Listener) (w : World)
  e c x p (fmt : option Format) :
  answers_upto_select cfg w e c x p ->
  w_selectMedia w = Fulfilled (fmt, None) ->
  bootstrap cfg hs w =
  {| this := built cfg e c p None None x (after_emit ERROR hs);
     log := upto_select cfg ++
            [ControllerCall op_unload;
             Emitted ERROR (Some (PlayerError NO_SUPPORTED_FORMAT_FOUND None))
                     (heard ERROR hs)];
     pc := Returned;
     phase := Error |}.
Proof.
  intros H Hs. unfold bootstrap. rewrite subscribe_new.
  known_world H; reflexivity.
Qed.

Lemma bootstrap_load_rejected (cfg : Config) (hs : list Listener) (w : World)
  e c x p f md (cause : Exn) :
  answers_upto_select cfg w e c x p ->
  w_selectMedia w = Fulfilled (f, Some md) ->
  w_load w = Rejected cause ->
  bootstrap cfg hs w =
  {| this := built cfg e c p (Some md) f x (after_emit ERROR hs);
     log := upto_select cfg ++
            [Begin LoadController; Completed LoadController;
             ControllerCall op_unload;
             Emitted ERROR
                     (Some (PlayerError CONTROLLER_LOAD_FAILED (Some cause)))
                     (heard ERROR hs)];
     pc := Returned;
     phase := Error |}.
Proof.
  intros H Hs Hl. unfold bootstrap. rewrite subscribe_new.
  known_world H; reflexivity.
Qed.

Lemma bootstrap_loaded (cfg : Config) (hs : list Listener) (w : World)
  e c x p f md (u : unit) :
  answers_upto_select cfg w e c x p ->
  w_selectMedia w = Fulfilled (f, Some md) ->
  w_load w = Fulfilled u ->
  bootstrap cfg hs w =
  {| this := built cfg e c p (Some md) f x (after_emit READY hs);
     log := upto_select cfg ++
            [Begin LoadController; Completed LoadController;
             Emitted READY None (heard READY hs)] ++
            (if autoplay cfg && env_canAutoplay e
             then [ControllerCall op_play] else []);
     pc := Returned;
     phase := Ready |}.
Proof.
  intros H Hs Hl. unfold bootstrap. rewrite subscribe_new.
  known_world H; destruct ap, e as [[|]]; reflexivity.
Qed.

Lemma successful_inv (cfg : Config) (hs : list Listener) (w : World) :
  successful cfg hs w ->
  exists e c x p f md,
    answers_upto_select cfg w e c x p /\
    w_selectMedia w = Fulfilled (f, Some md) /\
    w_load w = Fulfilled tt.
Proof.
  unfold successful, bootstrap, answers_upto_select. rewrite subscribe_new.
  destruct cfg as [srcs ap ip], w as [wp we wc wb wx wpl ws wl].
  intros Hin. cbn [ignorePolyfills
    w_polyfills w_getEnv w_controller w_boot w_extensions w_player
    w_selectMedia w_load].
  assert (Hp : ip = false -> wp = Fulfilled tt).
  { intros ->. destruct wp as [[]|?]; [reflexivity | stopped_early Hin]. }
  destruct ip; [clear Hp | rewrite (Hp eq_refl) in Hin].
  all: destruct we as [e|?]; [|stopped_early Hin].
  all: destruct wc as [c|?]; [|stopped_early Hin].
  all: destruct wb as [[]|?]; [|stopped_early Hin].
  all: destruct wx as [x|?]; [|stopped_early Hin].
  all: destruct wpl as [p|?]; [|stopped_early Hin].
  all: destruct ws as [[f [md|]]|?]; [|stopped_early Hin|stopped_early Hin].
  all: destruct wl as [[]|?]; [|stopped_early Hin].
  all: exists e, c, x, p, f, md; repeat split; auto; discriminate.
Qed.

Lemma not_begun (s : Stage) (l : list Effect) :
  existsb (is_begin s) l = false -> ~ In (Begin s) l.
Proof.
  intros H Hin. apply begun_existsb in Hin. congruence.
Qed.

(** ** Failure of the media selection *)

(** C3: when the media selector is reached and returns no media, the
    Instance ends in [Error]; exactly one error event is emitted, and it
    carries [NO_SUPPORTED_FORMAT_FOUND]; [controller.load()] is not called;
    no ready event is emitted. *)
Theorem no_supported_format_found
  (cfg : Config) (hs : list Listener) (w : World) (fmt : option Format) :
  In (Begin SelectMedia) (log (bootstrap cfg hs w)) ->
  w_selectMedia w = Fulfilled (fmt, None) ->
  let m := bootstrap cfg hs w in
  phase m = Error /\
  pc m = Returned /\
  events ERROR (log m) =
    [Emitted ERROR (Some (PlayerError NO_SUPPORTED_FORMAT_FOUND None))
             (heard ERROR hs)] /\
  ~ In (Begin LoadController) (log m) /\
  events READY (log m) = [].
Proof.
  intros Hin Hs m. subst m.
  destruct (select_reached _ _ _ Hin) as (e & c & x & p & Hw).
  rewrite (bootstrap_no_media hs Hw Hs).
  cbn [phase pc log].
  repeat split.
  - destruct cfg as [srcs ap [|]]; reflexivity.
  - apply not_begun. destruct cfg as [srcs ap [|]]; reflexivity.
  - destruct cfg as [srcs ap [|]]; reflexivity.
Qed.

Lemma no_supported_format_found_witness :
  let m := bootstrap Sample.cfg Sample.hosts Sample.unplayable in
  phase m = Error /\
  pc m = Returned /\
  events ERROR (log m) =
    [Emitted ERROR (Some (PlayerError NO_SUPPORTED_FORMAT_FOUND None)) [11]] /\
  ~ In (Begin LoadController) (log m) /\
  events READY (log m) = [].
Proof.
  apply (@no_supported_format_found
           Sample.cfg Sample.hosts Sample.unplayable None).
  - vm_compute. tauto.
  - reflexivity.
Defined.

(** ** Failure of the controller load *)

(** C4: when [controller.load()] is called and rejects with [cause], the
    Instance ends in [Error]; the error event carries
    [CONTROLLER_LOAD_FAILED] wrapping [cause]; [unload()] is called exactly
    once; no ready event is emitted. *)
Theorem controller_load_failed
  (cfg : Config) (hs : list Listener) (w : World) (cause : Exn) :
  In (Begin LoadController) (log (bootstrap cfg hs w)) ->
  w_load w = Rejected cause ->
  let m := bootstrap cfg hs w in
  phase m = Error /\
  pc m = Returned /\
  events ERROR (log m) =
    [Emitted ERROR (Some (PlayerError CONTROLLER_LOAD_FAILED (Some cause)))
             (heard ERROR hs)] /\
  filter is_unload (log m) = [ControllerCall op_unload] /\
  events READY (log m) = [].
Proof.
  intros Hin Hl m. subst m.
  destruct (load_reached _ _ _ Hin) as (e & c & x & p & f & md & Hw & Hs).
  rewrite (bootstrap_load_rejected hs Hw Hs Hl).
  cbn [phase pc log].
  repeat split; destruct cfg as [srcs ap [|]]; reflexivity.
Qed.

Lemma controller_load_failed_witness :
  let m := bootstrap Sample.cfg Sample.hosts Sample.load_fails in
  phase m = Error /\
  pc m = Returned /\
  events ERROR (log m) =
    [Emitted ERROR
             (Some (PlayerError CONTROLLER_LOAD_FAILED (Some (Rejection 7))))
             [11]] /\
  filter is_unload (log m) = [ControllerCall op_unload] /\
  events READY (log m) = [].
Proof.
  apply (@controller_load_failed
           Sample.cfg Sample.hosts Sample.load_fails (Rejection 7)).
  - vm_compute. tauto.
  - reflexivity.
Defined.

(** ** Autoplay *)

Lemma canAutoplay_spec (m : Machine) (e : Env) :
  env (this m) = Some e ->
  canAutoplay m = (Normal (autoplay (config (this m)) && env_canAutoplay e), m).
Proof.
  destruct m as [[c k en ct p md f x em] lg q ph]. cbn. intros ->.
  unfold canAutoplay, bind, get, deref. cbn.
  destruct (autoplay c); reflexivity.
Qed.

(** C5: in a successful bootstrap, [play()] is called by [init] right after
    the ready event exactly when [config.autoplay] and the snapshot's
    [canAutoplay] are both true; otherwise [init] does not call it. *)
Theorem autoplay_invariant (cfg : Config) (hs : list Listener) (w : World) :
  successful cfg hs w ->
  let m := bootstrap cfg hs w in
  exists e before,
    w_getEnv w = Fulfilled e /\
    env (this m) = Some e /\
    fst (canAutoplay m) = Normal (autoplay cfg && env_canAutoplay e) /\
    filter is_play before = [] /\
    events READY before = [] /\
    log m = before ++ Emitted READY None (heard READY hs) ::
            (if autoplay cfg && env_canAutoplay e
             then [ControllerCall op_play] else []) /\
    (In (ControllerCall op_play) (log m) <->
     autoplay cfg = true /\ env_canAutoplay e = true).
Proof.
  intros Hok m. subst m.
  destruct (successful_inv Hok)
    as (e & c & x & p & f & md & Hw & Hs & Hl).
  rewrite (bootstrap_loaded hs Hw Hs Hl).
  exists e, (upto_select cfg ++ [Begin LoadController; Completed LoadController]).
  destruct Hw as (_ & He & _).
  split; [exact He|]. split; [reflexivity|].
  split; [rewrite canAutoplay_spec with (e := e); reflexivity|].
  cbn [log].
  split; [destruct cfg as [srcs ap [|]]; reflexivity|].
  split; [destruct cfg as [srcs ap [|]]; reflexivity|].
  split; [now rewrite <- app_assoc|].
  destruct cfg as [srcs [|] [|]], e as [[|]]; cbn;
    intuition (try discriminate; try congruence).
Qed.

Lemma autoplay_invariant_witness :
  let m := bootstrap Sample.cfg Sample.hosts Sample.fine in
  exists e before,
    w_getEnv Sample.fine = Fulfilled e /\
    env (this m) = Some e /\
    fst (canAutoplay m) = Normal (autoplay Sample.cfg && env_canAutoplay e) /\
    filter is_play before = [] /\
    events READY before = [] /\
    log m = before ++ Emitted READY None (heard READY Sample.hosts) ::
            (if autoplay Sample.cfg && env_canAutoplay e
             then [ControllerCall op_play] else []) /\
    (In (ControllerCall op_play) (log m) <->
     autoplay Sample.cfg = true /\ env_canAutoplay e = true).
Proof.
  apply (@autoplay_invariant Sample.cfg Sample.hosts Sample.fine).
  reflexivity.
Defined.

(** ** Lifecycle events of a bootstrap *)

(** C6: a successful bootstrap emits exactly one ready event and no error
    event; a bootstrap that fails at the media-selection or at the
    controller-load stage emits exactly one error event and no ready
    event. *)
Theorem event_ordering (cfg : Config) (hs : list Listener) (w : World) :
  let m := bootstrap cfg hs w in
  (successful cfg hs w ->
   length (events READY (log m)) = 1 /\ events ERROR (log m) = []) /\
  (forall s, fails_at cfg hs w s ->
   length (events ERROR (log m)) = 1 /\ events READY (log m) = []).
Proof.
  intros m. subst m. split.
  - intros Hok.
    destruct (successful_inv Hok)
      as (e & c & x & p & f & md & Hw & Hs & Hl).
    rewrite (bootstrap_loaded hs Hw Hs Hl). cbn [log].
    destruct cfg as [srcs [|] [|]], e as [[|]]; split; reflexivity.
  - intros s [fmt Hin Hs | cause Hin Hl].
    + destruct (select_reached _ _ _ Hin) as (e & c & x & p & Hw).
      rewrite (bootstrap_no_media hs Hw Hs). cbn [log].
      destruct cfg as [srcs ap [|]]; split; reflexivity.
    + destruct (load_reached _ _ _ Hin) as (e & c & x & p & f & md & Hw & Hs).
      rewrite (bootstrap_load_rejected hs Hw Hs Hl). cbn [log].
      destruct cfg as [srcs ap [|]]; split; reflexivity.
Qed.

Lemma event_ordering_witness :
  let m := bootstrap Sample.cfg Sample.hosts Sample.fine in
  successful Sample.cfg Sample.hosts Sample.fine /\
  length (events READY (log m)) = 1 /\ events ERROR (log m) = [].
Proof.
  split; [reflexivity|].
  apply (proj1 (@event_ordering Sample.cfg Sample.hosts Sample.fine)).
  reflexivity.
Defined.

(** ** The methods, one equation each *)

Lemma controller_call_spec (op : ControllerOp) (m : Machine) :
  controller_call op m =
  match controller (this m) with
  | Some _ => (Normal tt, logged [ControllerCall op] m)
  | None => (Throw (TypeError "controller"), m)
  end.
Proof.
  destruct m as [[c k en [ct|] p md f x em] lg q ph]; reflexivity.
Qed.

Lemma emit_spec (name : EventName) (d : option Exn) (m : Machine) :
  snd (emit name d m) =
  {| this := set_emitter (after_emit name (emitter (this m))) (this m);
     log := log m ++ [Emitted name d (heard name (emitter (this m)))];
     pc := pc m; phase := phase m |}.
Proof.
  destruct m as [[c k en ct p md f x em] lg q ph]; reflexivity.
Qed.

Lemma destroy_spec (m : Machine) :
  destroy m =
  match controller (this m) with
  | Some _ =>
      (Normal tt,
       {| this := {| config := config (this m);
                     container := {| children := []; attached := false |};
                     env := env (this m);
                     controller := None; player := None;
                     media := None; format := None;
                     extensions := extensions (this m);
                     emitter := [] |};
          log := log m ++ [Emitted DESTROY None (heard DESTROY (emitter (this m)));
                           ControllerCall op_unload];
          pc := pc m;
          phase := Destroyed |})
  | None =>
      (Throw (TypeError "controller"),
       {| this := set_emitter [] (this m);
          log := log m ++ [Emitted DESTROY None (heard DESTROY (emitter (this m)))];
          pc := pc m;
          phase := phase m |})
  end.
Proof.
  destruct m as [[c [ch at_] en [ct|] p md f x em] lg q ph]; cbn.
  - unfold destroy, bind; cbn. rewrite <- app_assoc. cbn.
    replace (remove_children ch) with (@nil string); [reflexivity|].
    induction ch; [reflexivity | assumption].
  - reflexivity.
Qed.

Lemma getModule_spec (name : string) (m : Machine) :
  getModule name m =
  match extensions (this m) with
  | Some exts =>
      (Normal (find (map Some exts ++
                     [controller (this m); media (this m); player (this m)])
                    name), m)
  | None => (Throw (TypeError "extensions"), m)
  end.
Proof.
  destruct m as [[c k en ct p md f [x|] em] lg q ph]; reflexivity.
Qed.

(** ** The lifecycle invariant *)

Lemma lifecycle_inv_new (cfg : Config) : lifecycle_inv (new_Instance cfg).
Proof.
  destruct cfg as [srcs ap [|]]; cbn; intuition (try discriminate; try lia).
Qed.

Ltac use_index_facts :=
  repeat match goal with
         | H : _ /\ _ |- _ => destruct H
         | H : (?a <= ?b -> _) |- _ =>
             first [ specialize (H ltac:(lia))
                   | assert_succeeds (assert (~ a <= b) by lia); clear H ]
         | H : (@eq nat ?a ?b -> _) |- _ =>
             first [ specialize (H ltac:(lia))
                   | assert_succeeds (assert (a <> b) by lia); clear H ]
         end.

Ltac finish_inv :=
  cbn -[existsb app] in *; rewrite ?existsb_app in *;
  cbn in *; rewrite ?orb_true_r, ?orb_false_r in *;
  unfold selector_contract in *; cbn in *;
  use_index_facts;
  intuition (try discriminate; try congruence; try lia).

Lemma lifecycle_inv_invoke (c : Call) (m : Machine) :
  lifecycle_inv m -> protocol_ok (Invoke c) m ->
  lifecycle_inv (exec (Invoke c) m).
Proof.
  intros H Hp. unfold exec, invoke.
  destruct c;
    unfold play, pause, seekTo, setVolume;
    rewrite ?controller_call_spec, ?destroy_spec;
    try (destruct m as [[c k en [ct|] p md f x em] lg [|s| |e] [| | | |]];
         solve [finish_inv]).
  - unfold bind. rewrite getModule_spec.
    destruct m as [[c k en ct p md f [x|] em] lg q [| | | |]]; exact H.
Qed.

Lemma resume_mismatch (s : Settlement) (m : Machine) :
  suspended_on (stage_of s) m = false -> exec (Settle s) m = m.
Proof.
  unfold exec, resume. now intros ->.
Qed.

Lemma lifecycle_inv_settle (s : Settlement) (m : Machine) :
  lifecycle_inv m -> environment_ok (Settle s) ->
  lifecycle_inv (exec (Settle s) m).
Proof.
  intros H He.
  destruct (suspended_on (stage_of s) m) eqn:Hs;
    [|now rewrite resume_mismatch].
  destruct m as [[[srcs ap ip] k en ct p md f x em] lg q ph].
  destruct q as [|s0| |e]; try discriminate Hs.
  destruct ph; try (now cbn in H; intuition discriminate).
  destruct s as [r|r|r|r|r|r|r|r], s0; try discriminate Hs; clear Hs;
    destruct r as [v|e];
    try match type of v with (_ * _)%type => destruct v as [fm [mm|]] end.
  all: try solve [finish_inv].
  all: destruct ct as [ct|]; try solve [finish_inv].
  all: destruct ap, en as [[[|]]|]; solve [finish_inv].
Qed.

Lemma reachable_inv (cfg : Config) (m : Machine) :
  reachable cfg m -> lifecycle_inv m.
Proof.
  induction 1 as [|m a _ IH He Hp].
  - apply lifecycle_inv_new.
  - destruct a as [s|c].
    + now apply lifecycle_inv_settle.
    + now apply lifecycle_inv_invoke.
Qed.

(** ** Bootstraps are runs of the transition system *)

Lemma subscribe_reachable (cfg : Config) (hs : list Listener) (m : Machine) :
  reachable cfg m -> reachable cfg (subscribe hs m).
Proof.
  revert m. induction hs as [|h hs IH]; intros m Hm; [exact Hm|].
  unfold subscribe. cbn [fold_left]. apply IH.
  apply (@reach_step cfg m (Invoke (if l_once h
                                    then call_once (l_event h) (l_cb h)
                                    else call_on (l_event h) (l_cb h))));
    [exact Hm | | ]; destruct (l_once h); exact I.
Qed.

Lemma drive_reachable (cfg : Config) (w : World) (m : Machine) :
  world_ok w -> reachable cfg m -> reachable cfg (drive w m).
Proof.
  intros Hw Hm. unfold drive. destruct (pc m) as [|s| |e]; try exact Hm.
  apply reach_step; [exact Hm | | ].
  - destruct s; try exact I. unfold world_ok in Hw. cbn.
    destruct (w_selectMedia w); [exact Hw | exact I].
  - destruct s; exact I.
Qed.

Lemma bootstrap_reachable (cfg : Config) (hs : list Listener) (w : World) :
  world_ok w -> reachable cfg (bootstrap cfg hs w).
Proof.
  intros Hw. unfold bootstrap.
  generalize 8. intros n. induction n as [|n IH]; cbn.
  - apply subscribe_reachable, reach_new.
  - now apply drive_reachable.
Qed.

Lemma reachable_is_any (cfg : Config) (m : Machine) :
  reachable cfg m -> reachable_any cfg m.
Proof.
  induction 1 as [|m a _ IH He _]; [apply any_new | now apply any_step].
Qed.

Lemma drive_iter_reachable (cfg : Config) (w : World) (n : nat) :
  world_ok w -> reachable cfg (Nat.iter n (drive w) (new_Instance cfg)).
Proof.
  intros Hw. induction n as [|n IH]; cbn.
  - apply reach_new.
  - now apply drive_reachable.
Qed.

Lemma unload_logged (l : list Effect) :
  existsb is_unload l = true -> In (ControllerCall op_unload) l.
Proof.
  intros H. apply existsb_exists in H. destruct H as (e & Hin & He).
  destruct e as [| |[]|]; try discriminate He. exact Hin.
Qed.

(** ** The state invariant *)

(** C2, as the code has it, for a host that calls [destroy()] only once
    [init] has ended in [Ready] or in [Error]: in [Ready] the controller,
    the player, the format and the media are all set; in [Destroyed] all
    four are null; in [Error] the controller has been unloaded, but the
    controller and the player stay set, and the format and the media are
    set or not together. *)
Theorem state_invariant (cfg : Config) (m : Machine) :
  reachable cfg m ->
  (phase m = Ready ->
   controller (this m) <> None /\ player (this m) <> None /\
   format (this m) <> None /\ media (this m) <> None) /\
  (phase m = Destroyed ->
   controller (this m) = None /\ player (this m) = None /\
   format (this m) = None /\ media (this m) = None) /\
  (phase m = Error ->
   In (ControllerCall op_unload) (log m) /\
   controller (this m) <> None /\ player (this m) <> None /\
   (format (this m) = None <-> media (this m) = None)).
Proof.
  intros Hm. apply reachable_inv in Hm. unfold lifecycle_inv in Hm.
  split; [|split]; intros Hph; rewrite Hph in Hm; try tauto.
  split; [apply unload_logged|]; tauto.
Qed.

Lemma sample_world_ok : world_ok Sample.fine.
Proof. cbn. unfold selector_contract. cbn. split; discriminate. Qed.

Lemma sample_load_fails_ok : world_ok Sample.load_fails.
Proof. cbn. unfold selector_contract. cbn. split; discriminate. Qed.

Lemma state_invariant_witness :
  let m := bootstrap Sample.cfg Sample.hosts Sample.fine in
  phase m = Ready /\
  controller (this m) <> None /\ player (this m) <> None /\
  format (this m) <> None /\ media (this m) <> None.
Proof.
  split; [reflexivity|].
  apply (proj1 (@state_invariant Sample.cfg _
                  (@bootstrap_reachable Sample.cfg Sample.hosts Sample.fine
                                        sample_world_ok))).
  reflexivity.
Defined.

(** C2 as the spec words it fails.  After a failed controller load the
    Instance is in [Error] and still holds its controller, its player and
    its media.  And "whenever" is too much for [Destroyed] as well: when
    [destroy()] is called while [init] waits for the media selector, [init]
    goes on and binds the format and the media on the destroyed
    Instance. *)
Lemma references_not_released :
  (let m := bootstrap Sample.cfg Sample.hosts Sample.load_fails in
   reachable Sample.cfg m /\
   phase m = Error /\
   controller (this m) = Some Sample.ctl /\
   player (this m) = Some Sample.plr /\
   media (this m) = Some Sample.med) /\
  (let m := exec (Settle (selectMedia_settled
                            (Fulfilled (Some Sample.hls, Some Sample.med))))
                 (exec (Invoke call_destroy)
                       (Nat.iter 6 (drive Sample.fine)
                                 (new_Instance Sample.cfg))) in
   reachable_any Sample.cfg m /\
   phase m = Destroyed /\
   format (this m) = Some Sample.hls /\
   media (this m) = Some Sample.med).
Proof.
  split.
  - split; [apply bootstrap_reachable, sample_load_fails_ok|].
    repeat match goal with |- _ /\ _ => split end; vm_compute; reflexivity.
  - split.
    + apply any_step.
      * apply any_step; [|exact I].
        apply reachable_is_any, drive_iter_reachable, sample_world_ok.
      * cbn. unfold selector_contract. cbn. split; discriminate.
    + repeat match goal with |- _ /\ _ => split end; vm_compute; reflexivity.
Qed.

(** ** Module lookup *)

Lemma find_app_some (exts : list ModuleT) (rest : list (option ModuleT))
  (name : string) :
  find (map Some exts ++ rest) name =
  match first_named name exts with
  | Some md => Some md
  | None => find rest name
  end.
Proof.
  induction exts as [|x exts IH]; [reflexivity|].
  cbn. destruct (String.eqb (mname x) name); [reflexivity | exact IH].
Qed.

Lemma first_named_app (name : string) (l1 l2 : list ModuleT) :
  first_named name (l1 ++ l2) =
  match first_named name l1 with
  | Some md => Some md
  | None => first_named name l2
  end.
Proof.
  induction l1 as [|x l1 IH]; [reflexivity|].
  cbn. destruct (String.eqb (mname x) name); [reflexivity | exact IH].
Qed.

(** lodash's [find] over the array with its null entries is the search of
    the spec over the modules that are resolved. *)
Lemma find_resolved (exts : list ModuleT) (c md p : option ModuleT)
  (name : string) :
  find (map Some exts ++ [c; md; p]) name =
  first_named name (exts ++ one c ++ one md ++ one p).
Proof.
  rewrite find_app_some, first_named_app.
  destruct (first_named name exts); [reflexivity|].
  destruct c as [c|], md as [md|], p as [p|]; cbn;
    repeat match goal with
           | |- context [String.eqb ?a ?b] => destruct (String.eqb a b)
           end; reflexivity.
Qed.

(** The first element of [l] named [name], seen as a position in [l]. *)
Lemma first_named_first (name : string) (l : list ModuleT) (md : ModuleT) :
  first_named name l = Some md ->
  exists l1 l2,
    l = l1 ++ md :: l2 /\ mname md = name /\
    forall x, In x l1 -> mname x <> name.
Proof.
  induction l as [|x l IH]; [discriminate|].
  cbn. destruct (String.eqb (mname x) name) eqn:E.
  - intros [= <-]. exists [], l. apply String.eqb_eq in E.
    repeat split; [exact E | intros ? []].
  - intros H. destruct (IH H) as (l1 & l2 & -> & Hn & Hl1).
    exists (x :: l1), l2. repeat split; [exact Hn|].
    intros y [<- | Hy]; [now apply String.eqb_neq | now apply Hl1].
Qed.

Lemma first_named_none (name : string) (l : list ModuleT) :
  first_named name l = None <-> forall x, In x l -> mname x <> name.
Proof.
  unfold first_named. split.
  - intros H x Hx. apply String.eqb_neq.
    exact (find_none _ _ H x Hx).
  - intros H. destruct (List.find _ l) as [md|] eqn:E; [|reflexivity].
    apply find_some in E. destruct E as [Hin E].
    apply String.eqb_eq in E. now destruct (H md Hin).
Qed.

(** C8, as the code has it: once the extensions are resolved,
    [getModule(name)] returns the first module named [name] among the
    resolved modules taken in the order extensions, controller, media,
    player, and nothing when no resolved module has that name; it leaves
    the Instance unchanged. *)
Theorem getModule_first_match (m : Machine) (name : string)
  (exts : list ModuleT) :
  extensions (this m) = Some exts ->
  resolved_modules (this m) =
    exts ++ one (controller (this m)) ++ one (media (this m)) ++
    one (player (this m)) /\
  getModule name m =
    (Normal (first_named name (resolved_modules (this m))), m) /\
  (forall md, first_named name (resolved_modules (this m)) = Some md ->
     exists l1 l2,
       resolved_modules (this m) = l1 ++ md :: l2 /\ mname md = name /\
       forall x, In x l1 -> mname x <> name) /\
  (first_named name (resolved_modules (this m)) = None <->
   forall x, In x (resolved_modules (this m)) -> mname x <> name).
Proof.
  intros Hx.
  assert (Hr : resolved_modules (this m) =
               exts ++ one (controller (this m)) ++ one (media (this m)) ++
               one (player (this m))).
  { unfold resolved_modules. now rewrite Hx. }
  split; [exact Hr|]. split; [|split].
  - rewrite getModule_spec, Hx, Hr. now rewrite find_resolved.
  - intros md. apply first_named_first.
  - apply first_named_none.
Qed.

Lemma getModule_first_match_witness :
  let m := bootstrap Sample.cfg Sample.hosts Sample.fine in
  extensions (this m) = Some [Sample.ui] /\
  getModule "HlsMedia" m =
    (Normal (first_named "HlsMedia" (resolved_modules (this m))), m) /\
  first_named "HlsMedia" (resolved_modules (this m)) = Some Sample.med.
Proof.
  intros m.
  assert (Hx : extensions (this m) = Some [Sample.ui])
    by (vm_compute; reflexivity).
  split; [exact Hx|].
  split; [apply (@getModule_first_match m "HlsMedia" [Sample.ui] Hx)|].
  vm_compute; reflexivity.
Defined.

(** C8 as the spec words it fails: on an Instance that was just
    constructed no resolved module has the name, and [getModule] throws
    instead of returning nothing. *)
Lemma getModule_before_extensions :
  let m := new_Instance Sample.cfg in
  resolved_modules (this m) = [] /\
  getModule "HlsMedia" m = (Throw (TypeError "extensions"), m) /\
  fst (getModule "HlsMedia" m) <> Normal None.
Proof.
  split; [vm_compute; reflexivity|].
  split; [vm_compute; reflexivity|].
  vm_compute. discriminate.
Qed.

(** ** Playback operations without a controller *)





(** ** Teardown *)

(** C1, as the code has it: from [Ready] or [Error] the first [destroy()]
    returns normally and nulls the controller, the player, the format and
    the media; the extensions are kept, so that [getModule(name)] then
    returns the first extension named [name] and nothing for any other
    name; a second [destroy()] emits the destroy event again, to no
    listener, and then throws a [TypeError] at [this.controller.unload()],
    changing nothing else. *)
Theorem destroy_then_destroy (cfg : Config) (m : Machine) :
  reachable cfg m ->
  phase m = Ready \/ phase m = Error ->
  exists exts,
    extensions (this m) = Some exts /\
    let m1 := snd (destroy m) in
    fst (destroy m) = Normal tt /\
    phase m1 = Destroyed /\
    controller (this m1) = None /\ player (this m1) = None /\
    format (this m1) = None /\ media (this m1) = None /\
    emitter (this m1) = [] /\
    container (this m1) = {| children := []; attached := false |} /\
    filter is_unload (log m1) = filter is_unload (log m) ++ [ControllerCall op_unload] /\
    (forall name,
        getModule name m1 = (Normal (first_named name exts), m1)) /\
    destroy m1 =
      (Throw (TypeError "controller"), logged [Emitted DESTROY None []] m1).
Proof.
  intros Hm Hst. apply reachable_inv in Hm. unfold lifecycle_inv in Hm.
  assert (Hc : controller (this m) <> None /\ extensions (this m) <> None).
  { destruct Hst as [H | H]; rewrite H in Hm; tauto. }
  destruct Hc as [Hc Hx].
  destruct (extensions (this m)) as [exts|] eqn:Ex; [|contradiction].
  destruct (controller (this m)) as [c|] eqn:Ec; [|contradiction].
  exists exts. split; [reflexivity|]. cbn zeta.
  rewrite (destroy_spec m), Ec. cbn [fst snd phase this log controller player
    format media emitter container].
  repeat split.
  - rewrite filter_app. reflexivity.
  - intros name. rewrite getModule_spec.
    cbn [this extensions controller media player]. rewrite Ex.
    rewrite find_resolved. cbn. now rewrite app_nil_r.
Qed.

Lemma destroy_then_destroy_witness :
  let m := bootstrap Sample.cfg Sample.hosts Sample.fine in
  exists exts,
    extensions (this m) = Some exts /\
    let m1 := snd (destroy m) in
    fst (destroy m) = Normal tt /\
    phase m1 = Destroyed /\
    controller (this m1) = None /\ player (this m1) = None /\
    format (this m1) = None /\ media (this m1) = None /\
    emitter (this m1) = [] /\
    container (this m1) = {| children := []; attached := false |} /\
    filter is_unload (log m1) = filter is_unload (log m) ++ [ControllerCall op_unload] /\
    (forall name,
        getModule name m1 = (Normal (first_named name exts), m1)) /\
    destroy m1 =
      (Throw (TypeError "controller"), logged [Emitted DESTROY None []] m1).
Proof.
  apply (@destroy_then_destroy Sample.cfg).
  - apply bootstrap_reachable, sample_world_ok.
  - left. vm_compute. reflexivity.
Defined.

(** C1 as the spec words it fails: the second [destroy()] throws and emits
    one more event, and after the first one [getModule] still finds an
    extension. *)
Lemma destroy_twice_throws :
  let m := bootstrap Sample.cfg Sample.hosts Sample.fine in
  let m1 := snd (destroy m) in
  phase m = Ready /\
  fst (destroy m) = Normal tt /\
  fst (destroy m1) = Throw (TypeError "controller") /\
  log (snd (destroy m1)) = log m1 ++ [Emitted DESTROY None []] /\
  fst (getModule "UiExtension" m1) = Normal (Some Sample.ui).
Proof.
  intros m m1.
  repeat match goal with |- _ /\ _ => split end; vm_compute; reflexivity.
Qed.

(** ** Format and media are bound together *)

Ltac finish_pair :=
  unfold pair_inv in *;
  cbn -[existsb app] in *; unfold selector_contract in *; cbn in *;
  repeat match goal with
         | H : _ /\ _ |- _ => destruct H
         | H : forall s : Stage, Awaiting ?a = Awaiting s -> _ |- _ =>
             specialize (H a eq_refl); cbn in H
         | H : forall s : Stage, _ = Awaiting s -> _ |- _ => clear H
         end;
  use_index_facts;
  intuition (try discriminate; try congruence; try lia;
             try (match goal with
                  | H : Awaiting _ = Awaiting ?s |- _ =>
                      injection H as H; subst s
                  end; cbn in *; lia)).

Lemma pair_inv_new (cfg : Config) : pair_inv (new_Instance cfg).
Proof.
  destruct cfg as [srcs ap [|]]; split; cbn; tauto.
Qed.

Lemma pair_inv_invoke (c : Call) (m : Machine) :
  pair_inv m -> pair_inv (exec (Invoke c) m).
Proof.
  intros H. unfold exec, invoke.
  destruct c;
    unfold play, pause, seekTo, setVolume;
    rewrite ?controller_call_spec, ?destroy_spec;
    try (destruct m as [[c k en [ct|] p md f x em] lg q ph];
         solve [exact H | unfold pair_inv in *; cbn in *; tauto]).
  unfold bind. rewrite getModule_spec.
  destruct m as [[c k en ct p md f [x|] em] lg q ph]; exact H.
Qed.

Lemma pair_inv_settle (s : Settlement) (m : Machine) :
  pair_inv m -> environment_ok (Settle s) -> pair_inv (exec (Settle s) m).
Proof.
  intros H He.
  destruct (suspended_on (stage_of s) m) eqn:Hs;
    [|now rewrite resume_mismatch].
  destruct m as [[[srcs ap ip] k en ct p md f x em] lg q ph].
  destruct q as [|s0| |e]; try discriminate Hs.
  destruct s as [r|r|r|r|r|r|r|r], s0; try discriminate Hs; clear Hs;
    destruct r as [v|e];
    try match type of v with (_ * _)%type => destruct v as [fm [mm|]] end.
  all: try solve [finish_pair].
  all: destruct ct as [ct|]; try solve [finish_pair].
  all: destruct ap, en as [[[|]]|]; solve [finish_pair].
Qed.

Lemma reachable_any_pair (cfg : Config) (m : Machine) :
  reachable_any cfg m -> pair_inv m.
Proof.
  induction 1 as [|m a _ IH He].
  - apply pair_inv_new.
  - destruct a as [s|c].
    + now apply pair_inv_settle.
    + now apply pair_inv_invoke.
Qed.

Lemma assignment_step (a : Action) (m : Machine) :
  environment_ok a ->
  (format (this (exec a m)) = format (this m) /\
   media (this (exec a m)) = media (this m)) \/
  (exists f md,
      a = Settle (selectMedia_settled (Fulfilled (Some f, Some md))) /\
      pc m = Awaiting SelectMedia /\
      format (this (exec a m)) = Some f /\
      media (this (exec a m)) = Some md) \/
  (a = Invoke call_destroy /\
   format (this (exec a m)) = None /\ media (this (exec a m)) = None).
Proof.
  intros He. destruct a as [s|c].
  - destruct (suspended_on (stage_of s) m) eqn:Hs;
      [|rewrite resume_mismatch by exact Hs; now left].
    destruct m as [[[srcs ap ip] k en ct p md f x em] lg q ph].
    destruct q as [|s0| |e]; try discriminate Hs.
    destruct s as [r|r|r|r|r|r|r|r], s0; try discriminate Hs; clear Hs;
      destruct r as [v|e];
      try match type of v with
          | (_ * _)%type => destruct v as [[fm|] [mm|]]
          end;
      try (left; split; reflexivity).
    all: destruct ct as [ct|]; try (left; split; reflexivity).
    all: try (destruct ap, en as [[[|]]|]; left; split; reflexivity).
    all: try (right; left; exists fm, mm; repeat split; reflexivity).
    all: exfalso; cbn in He; unfold selector_contract in He; cbn in He;
      destruct He as [He _]; now specialize (He eq_refl).
  - unfold exec, invoke.
    destruct c;
      unfold play, pause, seekTo, setVolume;
      rewrite ?controller_call_spec, ?destroy_spec;
      try (destruct m as [[c k en [ct|] p md f x em] lg q ph];
           left; split; reflexivity).
    + destruct m as [[c k en [ct|] p md f x em] lg q ph];
        [right; right; repeat split | left; split; reflexivity].
    + unfold bind. rewrite getModule_spec.
      destruct m as [[c k en ct p md f [x|] em] lg q ph];
        left; split; reflexivity.
Qed.

(** C10: at every state an Instance can reach, whatever the host calls and
    whenever, the format is set exactly when the media is; a step changes
    the two fields only together ([init] binding the selected pair, or
    [destroy()] nulling both); and when the selector yields no media [init]
    returns with both fields still unset. *)
Theorem format_and_media_together (cfg : Config) (m : Machine) :
  reachable_any cfg m ->
  (format (this m) = None <-> media (this m) = None) /\
  (forall a, environment_ok a ->
     (format (this (exec a m)) = format (this m) /\
      media (this (exec a m)) = media (this m)) \/
     (exists f md,
         a = Settle (selectMedia_settled (Fulfilled (Some f, Some md))) /\
         pc m = Awaiting SelectMedia /\
         format (this (exec a m)) = Some f /\
         media (this (exec a m)) = Some md) \/
     (a = Invoke call_destroy /\
      format (this (exec a m)) = None /\
      media (this (exec a m)) = None)) /\
  (forall fmt,
     pc m = Awaiting SelectMedia ->
     let m' := exec (Settle (selectMedia_settled (Fulfilled (fmt, None)))) m in
     format (this m') = None /\ media (this m') = None /\
     (controller (this m) <> None -> pc m' = Returned)).
Proof.
  intros Hm. apply reachable_any_pair in Hm. destruct Hm as [Hiff Hpre].
  split; [exact Hiff|]. split; [intros a; apply assignment_step|].
  intros fmt Hpc.
  destruct (Hpre SelectMedia Hpc (le_n _)) as [Hf Hmd].
  destruct m as [[c k en ct p md f x em] lg q ph].
  cbn in Hpc, Hf, Hmd. subst q f md.
  destruct ct as [ct|]; cbn; repeat split; congruence.
Qed.

Lemma format_and_media_together_witness :
  let m := bootstrap Sample.cfg Sample.hosts Sample.fine in
  format (this m) = Some Sample.hls /\
  (format (this m) = None <-> media (this m) = None).
Proof.
  intros m.
  split; [vm_compute; reflexivity|].
  apply (@format_and_media_together Sample.cfg m).
  apply reachable_is_any, bootstrap_reachable, sample_world_ok.
Defined.

(** ** The stages of [init] run one after the other *)

Lemma stage_inv_new (cfg : Config) : stage_inv cfg (new_Instance cfg).
Proof.
  destruct cfg as [srcs ap [|]]; exists 1; cbn; intuition discriminate.
Qed.

Lemma stage_events_app (l1 l2 : list Effect) :
  stage_events (l1 ++ l2) = stage_events l1 ++ stage_events l2.
Proof. apply filter_app. Qed.

Lemma stage_inv_invoke (cfg : Config) (c : Call) (m : Machine) :
  stage_inv cfg m -> stage_inv cfg (exec (Invoke c) m).
Proof.
  intros (n & Hn & Hpc). exists n. unfold exec, invoke.
  destruct c;
    unfold play, pause, seekTo, setVolume;
    rewrite ?controller_call_spec, ?destroy_spec;
    try (destruct m as [[c k en [ct|] p md f x em] lg q ph];
         cbn -[stage_events schedule firstn app] in *;
         rewrite ?stage_events_app; cbn -[schedule firstn];
         rewrite ?app_nil_r; split; assumption).
  unfold bind. rewrite getModule_spec.
  destruct m as [[c k en ct p md f [x|] em] lg q ph]; split; assumption.
Qed.

Ltac finish_stage n :=
  first [ exists (S (S n)); cbn -[firstn schedule stage_events app];
          rewrite <- ?app_assoc, ?stage_events_app;
          match goal with H : stage_events _ = _ |- _ => rewrite H end;
          subst n; split; [reflexivity | split; [reflexivity | discriminate]]
        | exists (S n); cbn -[firstn schedule stage_events app];
          rewrite <- ?app_assoc, ?stage_events_app;
          match goal with H : stage_events _ = _ |- _ => rewrite H end;
          subst n; split; [reflexivity | exact I] ].

Lemma stage_inv_settle (cfg : Config) (s : Settlement) (m : Machine) :
  stage_inv cfg m -> stage_inv cfg (exec (Settle s) m).
Proof.
  intros H.
  destruct (suspended_on (stage_of s) m) eqn:Hs;
    [|now rewrite resume_mismatch].
  destruct H as (n & Hn & Hpc).
  destruct m as [[[srcs ap ip] k en ct p md f x em] lg q ph].
  destruct q as [|s0| |e]; try discriminate Hs.
  cbn [pc log] in Hpc, Hn. destruct Hpc as [Hp Hpoly].
  destruct cfg as [srcs' ap' ip'].
  destruct s as [r|r|r|r|r|r|r|r], s0; try discriminate Hs; clear Hs;
    destruct r as [v|e];
    try match type of v with (_ * _)%type => destruct v as [fm [mm|]] end;
    destruct ip'; try (discriminate (Hpoly eq_refl)); clear Hpoly;
    cbn in Hp.
  all: try solve [finish_stage n].
  all: destruct ct as [ct|]; try solve [finish_stage n].
  all: destruct ap, en as [[[|]]|]; solve [finish_stage n].
Qed.

Lemma reachable_any_stages (cfg : Config) (m : Machine) :
  reachable_any cfg m -> stage_inv cfg m.
Proof.
  induction 1 as [|m a _ IH _].
  - apply stage_inv_new.
  - destruct a as [s|c].
    + now apply stage_inv_settle.
    + now apply stage_inv_invoke.
Qed.

(** In the schedule, the settlement of a stage comes before the call of
    every later stage. *)
Lemma schedule_order (cfg : Config) (s s' : Stage) :
  earlier_stage cfg s s' ->
  forall l1 l2, schedule cfg = l1 ++ Begin s' :: l2 -> In (Completed s) l1.
Proof.
  intros [Hlt Hpoly] l1 l2 H.
  destruct cfg as [srcs ap [|]]; unfold schedule, prelude in H;
    cbn [ignorePolyfills app] in H, Hpoly;
    destruct s; try (discriminate (Hpoly eq_refl)); clear Hpoly;
    destruct s'; cbn in Hlt; try lia; clear Hlt.
  all: repeat (destruct l1 as [|? l1];
               [ cbn in H; try discriminate H
               | cbn in H; injection H as <- H; try (left; reflexivity);
                 right ]).
  all: try (cbn in H; discriminate H).
Qed.

(** What holds of a list holds of each of its prefixes. *)
Lemma prefix_order {A} (l : list A) (a b : A) :
  (forall l1 l2, l = l1 ++ b :: l2 -> In a l1) ->
  forall n l1 l2, firstn n l = l1 ++ b :: l2 -> In a l1.
Proof.
  intros H n l1 l2 Hn. apply (H l1 (l2 ++ skipn n l)).
  rewrite <- (firstn_skipn n l) at 1. rewrite Hn, <- app_assoc. reflexivity.
Qed.

(** C7: in every state an Instance can reach, the calls and settlements of
    the awaited operations that were logged are an initial part of the
    schedule: polyfills (unless ignored), environment snapshot, controller
    resolution, controller boot, extension resolution, player resolution,
    media selection, controller load, each one called only after the one
    before has settled.  So whenever a stage is begun, every earlier stage
    has settled before. *)
Theorem stages_run_in_sequence (cfg : Config) (m : Machine) :
  reachable_any cfg m ->
  (exists n, stage_events (log m) = firstn n (schedule cfg)) /\
  (forall s s' l1 l2,
      earlier_stage cfg s s' ->
      log m = l1 ++ Begin s' :: l2 ->
      In (Completed s) l1).
Proof.
  intros Hm. apply reachable_any_stages in Hm.
  destruct Hm as (n & Hn & _). split; [now exists n|].
  intros s s' l1 l2 Hs Hlog.
  assert (Hin : In (Completed s) (stage_events l1)).
  { apply (@prefix_order _ (schedule cfg) _ (Begin s') (schedule_order Hs)
                          n (stage_events l1) (stage_events l2)).
    rewrite <- Hn, Hlog, stage_events_app. reflexivity. }
  unfold stage_events in Hin. apply filter_In in Hin. tauto.
Qed.

Lemma stages_run_in_sequence_witness :
  let m := bootstrap Sample.cfg Sample.hosts Sample.fine in
  stage_events (log m) = schedule Sample.cfg /\
  (exists n, stage_events (log m) = firstn n (schedule Sample.cfg)).
Proof.
  intros m. split; [vm_compute; reflexivity|].
  apply (@stages_run_in_sequence Sample.cfg m).
  apply reachable_is_any, bootstrap_reachable, sample_world_ok.
Defined.

(** * Further properties of the class *)

(** ** [getStats] *)

Lemma getStats_spec (m : Machine) :
  getStats m =
  match controller (this m), media (this m), player (this m),
        extensions (this m) with
  | Some c, Some md, Some p, Some x =>
      (Normal {| stats_controller := entry c; stats_media := entry md;
                 stats_player := entry p; stats_extensions := map entry x |},
       m)
  | None, _, _, _ => (Throw (TypeError "controller"), m)
  | Some _, None, _, _ => (Throw (TypeError "media"), m)
  | Some _, Some _, None, _ => (Throw (TypeError "player"), m)
  | Some _, Some _, Some _, None => (Throw (TypeError "extensions"), m)
  end.
Proof.
  destruct m as [[c k en [ct|] [p|] [md|] f [x|] em] lg q ph]; reflexivity.
Qed.

Lemma named_is_found (name : string) (l : list ModuleT) (md : ModuleT) :
  In md l -> mname md = name ->
  exists md', first_named name l = Some md' /\ mname md' = name.
Proof.
  intros Hin Hn. destruct (first_named name l) as [md'|] eqn:E.
  - exists md'. split; [reflexivity|].
    destruct (first_named_first _ _ E) as (_ & _ & _ & H & _). exact H.
  - exfalso. exact (proj1 (first_named_none name l) E md Hin Hn).
Qed.

(** In [Ready], [getStats()] returns, changes nothing, lists exactly the
    resolved modules in the order of [getModule], each under its own name;
    and every name it lists is one that [getModule] finds. *)
Theorem getStats_when_ready (cfg : Config) (m : Machine) :
  reachable cfg m ->
  phase m = Ready ->
  exists st,
    getStats m = (Normal st, m) /\
    stats_entries st = map entry (resolved_modules (this m)) /\
    forall n md, In (n, md) (stats_entries st) ->
      exists md', getModule n m = (Normal (Some md'), m) /\ mname md' = n.
Proof.
  intros Hm Hph. apply reachable_inv in Hm. unfold lifecycle_inv in Hm.
  rewrite Hph in Hm. destruct Hm as (_ & _ & Hc & Hp & _ & Hmd & Hx).
  destruct (controller (this m)) as [c|] eqn:Ec; [|contradiction].
  destruct (player (this m)) as [p|] eqn:Ep; [|contradiction].
  destruct (media (this m)) as [md|] eqn:Emd; [|contradiction].
  destruct (extensions (this m)) as [x|] eqn:Ex; [|contradiction].
  assert (Hr : resolved_modules (this m) = x ++ [c; md; p]).
  { unfold resolved_modules. now rewrite Ec, Ep, Emd, Ex. }
  eexists. split; [rewrite getStats_spec, Ec, Ep, Emd, Ex; reflexivity|].
  unfold stats_entries. cbn [stats_extensions stats_controller stats_media
                             stats_player].
  assert (He : map entry x ++ [entry c; entry md; entry p] =
               map entry (resolved_modules (this m))).
  { rewrite Hr, map_app. reflexivity. }
  split; [exact He|].
  intros n md0 Hin.
  assert (Hin' : In (n, md0) (map entry (resolved_modules (this m))))
    by (rewrite <- He; exact Hin).
  clear Hin. rename Hin' into Hin. apply in_map_iff in Hin.
  destruct Hin as (md1 & [= Hn _] & Hin).
  destruct (named_is_found _ _ Hin Hn) as (md' & Hf & Hn').
  exists md'. split; [|exact Hn'].
  rewrite getModule_spec, Ex, Ec, Emd, Ep. do 2 f_equal.
  rewrite find_resolved. rewrite Hr in Hf. exact Hf.
Qed.

Lemma getStats_when_ready_witness :
  let m := bootstrap Sample.cfg Sample.hosts Sample.fine in
  exists st,
    getStats m = (Normal st, m) /\
    stats_entries st = map entry (resolved_modules (this m)) /\
    forall n md, In (n, md) (stats_entries st) ->
      exists md', getModule n m = (Normal (Some md'), m) /\ mname md' = n.
Proof.
  apply (@getStats_when_ready Sample.cfg).
  - apply bootstrap_reachable, sample_world_ok.
  - vm_compute. reflexivity.
Defined.

(** Outside [Ready], [getStats()] throws on the first reference that is
    missing: the controller before it is resolved and after [destroy()],
    the media after a bootstrap that found no supported format; after a
    failed controller load every reference is still there and it returns. *)
Theorem getStats_elsewhere (cfg : Config) (m : Machine) :
  reachable cfg m ->
  (phase m = Destroyed ->
   getStats m = (Throw (TypeError "controller"), m)) /\
  (forall s, phase m = Initializing -> pc m = Awaiting s ->
             stage_index s <= stage_index ResolveController ->
   getStats m = (Throw (TypeError "controller"), m)) /\
  (phase m = Error -> media (this m) = None ->
   getStats m = (Throw (TypeError "media"), m)) /\
  (phase m = Error -> media (this m) <> None ->
   exists st, getStats m = (Normal st, m)).
Proof.
  intros Hm. apply reachable_inv in Hm. unfold lifecycle_inv in Hm.
  rewrite getStats_spec.
  repeat match goal with |- _ /\ _ => split end.
  - intros Hph. rewrite Hph in Hm. destruct Hm as (_ & -> & _). reflexivity.
  - intros s Hph Hpc Hle. rewrite Hph, Hpc in Hm. cbn in Hle.
    destruct Hm as (_ & Hc & _). now rewrite (Hc Hle).
  - intros Hph Hmd. rewrite Hph in Hm. destruct Hm as (_ & Hc & _).
    destruct (controller (this m)); [|contradiction]. now rewrite Hmd.
  - intros Hph Hmd. rewrite Hph in Hm. destruct Hm as (_ & Hc & Hp & Hx & _).
    destruct (controller (this m)); [|contradiction].
    destruct (media (this m)); [|contradiction].
    destruct (player (this m)); [|contradiction].
    destruct (extensions (this m)); [|contradiction].
    eexists. reflexivity.
Qed.

Lemma getStats_elsewhere_witness :
  let m := bootstrap Sample.cfg Sample.hosts Sample.unplayable in
  phase m = Error /\ media (this m) = None /\
  getStats m = (Throw (TypeError "media"), m).
Proof.
  intros m.
  assert (Hph : phase m = Error) by (vm_compute; reflexivity).
  assert (Hmd : media (this m) = None) by (vm_compute; reflexivity).
  assert (Hr : reachable Sample.cfg m).
  { apply bootstrap_reachable. cbn. unfold selector_contract. cbn. tauto. }
  clearbody m.
  split; [exact Hph|]. split; [exact Hmd|].
  exact (proj1 (proj2 (proj2 (@getStats_elsewhere Sample.cfg m Hr))) Hph Hmd).
Defined.

(** ** How a bootstrap ends *)

Ltac ends_fatally :=
  vm_compute; repeat match goal with |- _ /\ _ => split end; reflexivity.

Ltac ends_settled :=
  vm_compute; split;
  [reflexivity | first [left; reflexivity | right; reflexivity]].

(** A rejection of the polyfill import, of [getEnv], of a module
    resolution, of [boot] or of [selectMedia] is not caught: the promise of
    [init] is rejected with that very cause, no error event and no ready
    event is emitted, the controller is not unloaded, the subscribers stay
    and no format or media is bound.  Without such a rejection [init]
    returns, within eight turns, in [Ready] or in [Error]. *)
Theorem bootstrap_outcome (cfg : Config) (hs : list Listener) (w : World) :
  let m := bootstrap cfg hs w in
  match first_rejection cfg w with
  | Some e =>
      pc m = Failed e /\ phase m = Initializing /\
      events ERROR (log m) = [] /\ events READY (log m) = [] /\
      filter is_unload (log m) = [] /\
      emitter (this m) = hs /\
      format (this m) = None /\ media (this m) = None
  | None =>
      pc m = Returned /\ (phase m = Ready \/ phase m = Error)
  end.
Proof.
  unfold bootstrap. rewrite subscribe_new.
  destruct cfg as [srcs ap ip], w as [wp we wc wb wx wpl ws wl].
  destruct ap, ip;
    [ | destruct wp as [[]|?]; [|solve [ends_fatally]]
      | | destruct wp as [[]|?]; [|solve [ends_fatally]] ].
  all: destruct we as [[[|]]|?]; [| |solve [ends_fatally]].
  all: destruct wc as [?|?]; [|solve [ends_fatally]].
  all: destruct wb as [[]|?]; [|solve [ends_fatally]].
  all: destruct wx as [?|?]; [|solve [ends_fatally]].
  all: destruct wpl as [?|?]; [|solve [ends_fatally]].
  all: destruct ws as [[? [?|]]|?];
    [|solve [ends_settled]|solve [ends_fatally]].
  all: destruct wl as [[]|?]; solve [ends_settled].
Qed.

(** ** [setError] as a method of its own *)

Lemma setError_spec (error : Exn) (m : Machine) :
  setError error m =
  match controller (this m) with
  | Some _ =>
      (Normal tt,
       {| this := set_emitter (after_emit ERROR (emitter (this m))) (this m);
          log := log m ++
                 [ControllerCall op_unload;
                  Emitted ERROR (Some error) (heard ERROR (emitter (this m)))];
          pc := pc m; phase := phase m |})
  | None => (Throw (TypeError "controller"), m)
  end.
Proof.
  destruct m as [[c k en [ct|] p md f x em] lg q ph]; [|reflexivity].
  unfold setError, bind. cbn. now rewrite <- app_assoc.
Qed.

(** [setError] without a controller throws before it emits, so the error
    is reported to nobody; with a controller it unloads it first, then
    emits the error to the subscribers, and releases nothing: every
    reference and the container stay as they were. *)
Theorem setError_behaviour (m : Machine) (error : Exn) :
  (controller (this m) = None ->
   setError error m = (Throw (TypeError "controller"), m)) /\
  (controller (this m) <> None ->
   let m' := snd (setError error m) in
   fst (setError error m) = Normal tt /\
   log m' = log m ++
            [ControllerCall op_unload;
             Emitted ERROR (Some error) (heard ERROR (emitter (this m)))] /\
   emitter (this m') = after_emit ERROR (emitter (this m)) /\
   controller (this m') = controller (this m) /\
   player (this m') = player (this m) /\
   media (this m') = media (this m) /\
   format (this m') = format (this m) /\
   extensions (this m') = extensions (this m) /\
   container (this m') = container (this m)).
Proof.
  rewrite setError_spec. split.
  - intros ->. reflexivity.
  - intros Hc. destruct (controller (this m)) eqn:Ec; [|contradiction].
    cbn. rewrite Ec.
    repeat match goal with |- _ /\ _ => split end; reflexivity.
Qed.

Lemma setError_behaviour_witness :
  let m := new_Instance Sample.cfg in
  controller (this m) = None /\
  setError (Rejection 3) m = (Throw (TypeError "controller"), m).
Proof.
  intros m. split; [reflexivity|].
  apply (proj1 (@setError_behaviour m (Rejection 3))). reflexivity.
Defined.

(** ** Playback operations with a controller *)

(** In [Ready], and in [Error] as well, where the controller has been
    unloaded, each playback operation returns normally after exactly one
    call of the controller's method of the same name with the same
    argument, and changes nothing else. *)
Theorem playback_is_forwarded (cfg : Config) (m : Machine) :
  reachable cfg m ->
  phase m = Ready \/ phase m = Error ->
  play m = (Normal tt, logged [ControllerCall op_play] m) /\
  pause m = (Normal tt, logged [ControllerCall op_pause] m) /\
  (forall t, seekTo t m = (Normal tt, logged [ControllerCall (op_seekTo t)] m)) /\
  (forall v,
      setVolume v m = (Normal tt, logged [ControllerCall (op_setVolume v)] m)).
Proof.
  intros Hm Hst. apply reachable_inv in Hm. unfold lifecycle_inv in Hm.
  assert (Hc : controller (this m) <> None).
  { destruct Hst as [H | H]; rewrite H in Hm; tauto. }
  unfold play, pause, seekTo, setVolume.
  repeat match goal with |- _ /\ _ => split end; intros;
    rewrite controller_call_spec;
    destruct (controller (this m)); solve [reflexivity | contradiction].
Qed.

Lemma playback_is_forwarded_witness :
  let m := bootstrap Sample.cfg Sample.hosts Sample.load_fails in
  phase m = Error /\
  play m = (Normal tt, logged [ControllerCall op_play] m).
Proof.
  intros m.
  assert (Hph : phase m = Error) by (vm_compute; reflexivity).
  assert (Hr : reachable Sample.cfg m)
    by apply bootstrap_reachable, sample_load_fails_ok.
  clearbody m. split; [exact Hph|].
  exact (proj1 (@playback_is_forwarded Sample.cfg m Hr (or_intror Hph))).
Defined.

(** ** The container *)

Lemma container_inv_new (cfg : Config) : container_inv (new_Instance cfg).
Proof.
  destruct cfg as [srcs ap [|]]; reflexivity.
Qed.

Lemma container_inv_invoke (c : Call) (m : Machine) :
  lifecycle_inv m -> container_inv m -> protocol_ok (Invoke c) m ->
  container_inv (exec (Invoke c) m).
Proof.
  intros Hl H Hp. unfold exec, invoke.
  destruct c;
    unfold play, pause, seekTo, setVolume;
    rewrite ?controller_call_spec, ?destroy_spec;
    try (destruct m as [[c k en [ct|] p md f x em] lg q [| | | |]];
         solve [exact H | cbn in *; (reflexivity || tauto || intuition discriminate)]).
  unfold bind. rewrite getModule_spec.
  destruct m as [[c k en ct p md f [x|] em] lg q ph]; exact H.
Qed.

Lemma container_inv_settle (s : Settlement) (m : Machine) :
  lifecycle_inv m -> container_inv m -> container_inv (exec (Settle s) m).
Proof.
  intros Hl H.
  destruct (suspended_on (stage_of s) m) eqn:Hs;
    [|now rewrite resume_mismatch].
  destruct m as [[[srcs ap ip] k en ct p md f x em] lg q ph].
  destruct q as [|s0| |e]; try discriminate Hs.
  destruct ph; try (now cbn in Hl; intuition discriminate).
  destruct s as [r|r|r|r|r|r|r|r], s0; try discriminate Hs; clear Hs;
    destruct r as [v|e];
    try match type of v with (_ * _)%type => destruct v as [fm [mm|]] end.
  all: try solve [exact H].
  all: destruct ct as [ct|]; try solve [exact H].
  all: destruct ap, en as [[[|]]|]; solve [exact H].
Qed.

Lemma reachable_container (cfg : Config) (m : Machine) :
  reachable cfg m -> container_inv m.
Proof.
  induction 1 as [|m a Hm IH He Hp].
  - apply container_inv_new.
  - apply reachable_inv in Hm. destruct a as [s|c].
    + now apply container_inv_settle.
    + now apply container_inv_invoke.
Qed.

(** The container is written twice only: [createContainers] attaches it
    with its three children, player, ads and ui in that order, and
    [destroy()] empties and detaches it; nothing in between touches it. *)
Theorem container_lifetime (cfg : Config) (m : Machine) :
  reachable cfg m ->
  (phase m <> Destroyed -> container (this m) = created) /\
  (phase m = Destroyed -> container (this m) = removed).
Proof.
  intros Hm. apply reachable_container in Hm. unfold container_inv in Hm.
  split; intros Hph; destruct (phase m); congruence.
Qed.

Lemma container_lifetime_witness :
  let m := bootstrap Sample.cfg Sample.hosts Sample.fine in
  phase m <> Destroyed /\ container (this m) = created.
Proof.
  intros m.
  assert (Hph : phase m <> Destroyed) by (vm_compute; discriminate).
  assert (Hr : reachable Sample.cfg m)
    by apply bootstrap_reachable, sample_world_ok.
  clearbody m. split; [exact Hph|].
  exact (proj1 (@container_lifetime Sample.cfg m Hr) Hph).
Defined.

(** ** [destroy()] while [init] is still running *)

Lemma suspended_phase (m : Machine) (s : Stage) :
  lifecycle_inv m -> pc m = Awaiting s -> phase m = Initializing.
Proof.
  unfold lifecycle_inv. intros H Hpc.
  destruct (phase m); try reflexivity; try contradiction;
    destruct H as [H _]; congruence.
Qed.

(** [destroy()] does not stop [init].  When it is called while [init]
    waits for the media selector it returns normally, unloading the
    controller once; but once the selector answers with a media [init]
    binds the format and the media again and, with no controller left, its
    promise is rejected with a [TypeError] for the null controller:
    [load()] is not called, [unload()] is not called again, no error event
    is emitted, and the destroyed Instance is left holding the media. *)
Theorem destroy_while_selecting (cfg : Config) (m : Machine)
  (f : option Format) (md : Media) :
  reachable cfg m ->
  pc m = Awaiting SelectMedia ->
  let m1 := exec (Invoke call_destroy) m in
  let m2 := exec (Settle (selectMedia_settled (Fulfilled (f, Some md)))) m1 in
  fst (destroy m) = Normal tt /\
  media (this m1) = None /\
  pc m2 = Failed (TypeError "controller") /\
  format (this m2) = f /\ media (this m2) = Some md /\
  controller (this m2) = None /\
  log m2 = log m ++
           [Emitted DESTROY None (heard DESTROY (emitter (this m)));
            ControllerCall op_unload; Completed SelectMedia].
Proof.
  intros Hm Hpc. apply reachable_inv in Hm.
  pose proof (@suspended_phase _ _ Hm Hpc) as Hph.
  unfold lifecycle_inv in Hm. rewrite Hph, Hpc in Hm.
  destruct Hm as (_ & _ & Hc & _). specialize (Hc ltac:(cbn; lia)).
  destruct m as [[c k en [ct|] p md0 f0 x em] lg q ph]; [|contradiction].
  cbn in Hpc. subst q. cbn.
  repeat match goal with |- _ /\ _ => split end; try reflexivity.
  now rewrite <- !app_assoc.
Qed.

Lemma destroy_while_selecting_witness :
  let m := Nat.iter 6 (drive Sample.fine) (new_Instance Sample.cfg) in
  let m1 := exec (Invoke call_destroy) m in
  let m2 := exec (Settle (selectMedia_settled
                            (Fulfilled (Some Sample.hls, Some Sample.med)))) m1 in
  pc m = Awaiting SelectMedia /\
  pc m2 = Failed (TypeError "controller") /\
  media (this m2) = Some Sample.med.
Proof.
  intros m m1 m2.
  assert (Hpc : pc m = Awaiting SelectMedia) by (vm_compute; reflexivity).
  assert (Hr : reachable Sample.cfg m).
  { subst m. generalize 6. intros n. induction n as [|n IH]; cbn.
    - apply reach_new.
    - apply drive_reachable; [apply sample_world_ok | exact IH]. }
  split; [exact Hpc|].
  pose proof (@destroy_while_selecting Sample.cfg m (Some Sample.hls)
                Sample.med Hr Hpc) as H.
  cbv zeta in H. fold m1 in H. fold m2 in H. tauto.
Defined.

(** When [destroy()] is called while [init] waits for [controller.load()]:
    a rejection of [load()] is then lost ([init] fails in [setError] with a
    [TypeError] and emits no error event); a fulfilment still emits the
    ready event, to no listener since [destroy()] removed them, and [init]
    then fails in the automatic [play()] when autoplay applies, and returns
    otherwise. *)
Theorem destroy_while_loading (cfg : Config) (m : Machine) :
  reachable cfg m ->
  pc m = Awaiting LoadController ->
  let m1 := exec (Invoke call_destroy) m in
  exists e,
    env (this m) = Some e /\
    fst (destroy m) = Normal tt /\
    (forall cause,
        let m2 := exec (Settle (load_settled (Rejected cause))) m1 in
        pc m2 = Failed (TypeError "controller") /\
        log m2 = log m1 ++ [Completed LoadController]) /\
    (let m2 := exec (Settle (load_settled (Fulfilled tt))) m1 in
     log m2 = log m1 ++ [Completed LoadController; Emitted READY None []] /\
     pc m2 = if autoplay (config (this m)) && env_canAutoplay e
             then Failed (TypeError "controller") else Returned).
Proof.
  intros Hm Hpc. apply reachable_inv in Hm.
  pose proof (@suspended_phase _ _ Hm Hpc) as Hph.
  unfold lifecycle_inv in Hm. rewrite Hph, Hpc in Hm.
  destruct Hm as (He & _ & Hc & _).
  specialize (Hc ltac:(cbn; lia)). specialize (He ltac:(cbn; lia)).
  destruct m as [[[srcs ap ip] k [e|] [ct|] p md0 f0 x em] lg q ph];
    try contradiction.
  cbn in Hpc. subst q. exists e.
  split; [reflexivity|]. split; [reflexivity|]. split.
  - intros cause. cbn. split; [reflexivity|].
    unfold logged. cbn. now rewrite <- !app_assoc.
  - destruct ap, e as [[|]]; cbn; (split; [|reflexivity]);
      now rewrite <- !app_assoc.
Qed.

Lemma destroy_while_loading_witness :
  let m := Nat.iter 7 (drive Sample.fine) (new_Instance Sample.cfg) in
  let m1 := exec (Invoke call_destroy) m in
  pc m = Awaiting LoadController /\
  pc (exec (Settle (load_settled (Rejected (Rejection 7)))) m1) =
    Failed (TypeError "controller").
Proof.
  intros m m1.
  assert (Hpc : pc m = Awaiting LoadController) by (vm_compute; reflexivity).
  assert (Hr : reachable Sample.cfg m).
  { subst m. generalize 7. intros n. induction n as [|n IH]; cbn.
    - apply reach_new.
    - apply drive_reachable; [apply sample_world_ok | exact IH]. }
  split; [exact Hpc|].
  destruct (@destroy_while_loading Sample.cfg m Hr Hpc)
    as (e & _ & _ & H & _).
  exact (proj1 (H (Rejection 7))).
Defined.

(** ** No awaited operation is called twice *)

Lemma begin_among_stage_events (s : Stage) (l : list Effect) :
  filter (is_begin s) l = filter (is_begin s) (stage_events l).
Proof.
  induction l as [|e l IH]; [reflexivity|].
  destruct e as [s'|s'|op|n d ns]; cbn; rewrite ?IH; reflexivity.
Qed.

Lemma filter_firstn_length {A} (f : A -> bool) (n : nat) (l : list A) :
  length (filter f (firstn n l)) <= length (filter f l).
Proof.
  revert n. induction l as [|a l IH]; intros [|n]; cbn; try lia.
  specialize (IH n). destruct (f a); cbn; lia.
Qed.

(** Whatever the host calls and whenever, the polyfill import, [getEnv],
    each module resolution, [boot], [selectMedia] and [load] are each
    called at most once in the life of an Instance. *)
Theorem each_stage_at_most_once (cfg : Config) (m : Machine) (s : Stage) :
  reachable_any cfg m ->
  length (filter (is_begin s) (log m)) <= 1.
Proof.
  intros Hm. apply reachable_any_stages in Hm. destruct Hm as (n & Hn & _).
  rewrite begin_among_stage_events, Hn.
  eapply Nat.le_trans; [apply filter_firstn_length|].
  destruct cfg as [srcs ap [|]], s; cbn; lia.
Qed.

Lemma each_stage_at_most_once_witness :
  length (filter (is_begin LoadController)
                 (log (bootstrap Sample.cfg Sample.hosts Sample.fine))) <= 1.
Proof.
  apply (@each_stage_at_most_once Sample.cfg).
  apply reachable_is_any, bootstrap_reachable, sample_world_ok.
Defined.

Lemma in_prefix {A} (x : A) (n : nat) (l : list A) :
  In x (firstn n l) -> In x l.
Proof.
  intros H. rewrite <- (firstn_skipn n l). apply in_or_app. now left.
Qed.

(** With [ignorePolyfills] set the polyfills are never imported, whatever
    happens later. *)
Theorem polyfills_can_be_skipped (cfg : Config) (m : Machine) :
  reachable_any cfg m ->
  ignorePolyfills cfg = true ->
  ~ In (Begin Polyfills) (log m) /\ ~ In (Completed Polyfills) (log m).
Proof.
  intros Hm Hip. apply reachable_any_stages in Hm. destruct Hm as (n & Hn & _).
  assert (H : forall e, is_stage_event e = true -> In e (log m) ->
                        In e (schedule cfg)).
  { intros e He Hin. apply (@in_prefix _ e n). rewrite <- Hn.
    apply filter_In. now split. }
  destruct cfg as [srcs ap ip]. cbn in Hip. subst ip.
  split; intros Hin; apply H in Hin; try reflexivity;
    cbn in Hin; intuition discriminate.
Qed.

Lemma polyfills_can_be_skipped_witness :
  let cfg := {| sources := []; autoplay := false; ignorePolyfills := true |} in
  let m := bootstrap cfg [] Sample.fine in
  ~ In (Begin Polyfills) (log m) /\ ~ In (Completed Polyfills) (log m).
Proof.
  intros cfg m.
  apply (@polyfills_can_be_skipped cfg m).
  - apply reachable_is_any, bootstrap_reachable, sample_world_ok.
  - reflexivity.
Defined.

(** ** [canAutoplay] at any time *)

Lemma snapshot_inv_new (cfg : Config) : snapshot_inv cfg (new_Instance cfg).
Proof.
  destruct cfg as [srcs ap [|]]; split; cbn; intuition (try lia; try discriminate).
Qed.

Ltac finish_snapshot :=
  unfold snapshot_inv in *; cbn in *;
  use_index_facts;
  intuition (try discriminate; try congruence; try lia).

Lemma snapshot_inv_invoke (cfg : Config) (c : Call) (m : Machine) :
  snapshot_inv cfg m -> snapshot_inv cfg (exec (Invoke c) m).
Proof.
  intros H. unfold exec, invoke.
  destruct c;
    unfold play, pause, seekTo, setVolume;
    rewrite ?controller_call_spec, ?destroy_spec;
    try (destruct m as [[c k en [ct|] p md f x em] lg q ph];
         solve [exact H]).
  unfold bind. rewrite getModule_spec.
  destruct m as [[c k en ct p md f [x|] em] lg q ph]; exact H.
Qed.

Lemma snapshot_inv_settle (cfg : Config) (s : Settlement) (m : Machine) :
  snapshot_inv cfg m -> snapshot_inv cfg (exec (Settle s) m).
Proof.
  intros H.
  destruct (suspended_on (stage_of s) m) eqn:Hs;
    [|now rewrite resume_mismatch].
  destruct m as [[[srcs ap ip] k en ct p md f x em] lg q ph].
  destruct q as [|s0| |e]; try discriminate Hs.
  destruct s as [r|r|r|r|r|r|r|r], s0; try discriminate Hs; clear Hs;
    destruct r as [v|e];
    try match type of v with (_ * _)%type => destruct v as [fm [mm|]] end.
  all: try solve [finish_snapshot].
  all: destruct ct as [ct|]; try solve [finish_snapshot].
  all: destruct ap, en as [[[|]]|]; solve [finish_snapshot].
Qed.

Lemma reachable_any_snapshot (cfg : Config) (m : Machine) :
  reachable_any cfg m -> snapshot_inv cfg m.
Proof.
  induction 1 as [|m a _ IH _].
  - apply snapshot_inv_new.
  - destruct a as [s|c].
    + now apply snapshot_inv_settle.
    + now apply snapshot_inv_invoke.
Qed.

(** No method writes the configuration.  [canAutoplay()] never changes the
    Instance; with [config.autoplay] off it returns false at any time, even
    before the snapshot exists; with it on it throws a [TypeError] until
    [getEnv] has answered, and once [init] has returned it answers with the
    snapshot's flag, also after [destroy()], which keeps the snapshot. *)
Theorem canAutoplay_at_any_time (cfg : Config) (m : Machine) :
  reachable_any cfg m ->
  config (this m) = cfg /\
  snd (canAutoplay m) = m /\
  (autoplay cfg = false -> fst (canAutoplay m) = Normal false) /\
  (autoplay cfg = true ->
   forall s, pc m = Awaiting s -> stage_index s <= stage_index GetEnv ->
             fst (canAutoplay m) = Throw (TypeError "env")) /\
  (pc m = Returned ->
   exists e, env (this m) = Some e /\
             fst (canAutoplay m) = Normal (autoplay cfg && env_canAutoplay e)).
Proof.
  intros Hm. apply reachable_any_snapshot in Hm. destruct Hm as [Hcfg Hpc].
  destruct m as [[c k en ct p md f x em] lg q ph]. cbn in Hcfg, Hpc. subst c.
  split; [reflexivity|].
  unfold canAutoplay, bind, get, deref. cbn.
  repeat match goal with |- _ /\ _ => split end.
  - destruct (autoplay cfg), en; reflexivity.
  - intros ->. reflexivity.
  - intros -> s [= ->] Hle. destruct Hpc as [Hnone _].
    rewrite (Hnone Hle). reflexivity.
  - intros ->. destruct en as [e|]; [|contradiction].
    exists e. split; [reflexivity|]. destruct (autoplay cfg); reflexivity.
Qed.

Lemma canAutoplay_at_any_time_witness :
  let m := exec (Invoke call_destroy)
                (bootstrap Sample.cfg Sample.hosts Sample.fine) in
  pc m = Returned /\
  exists e, env (this m) = Some e /\
            fst (canAutoplay m) =
            Normal (autoplay Sample.cfg && env_canAutoplay e).
Proof.
  intros m.
  assert (Hpc : pc m = Returned) by (vm_compute; reflexivity).
  assert (Hr : reachable_any Sample.cfg m).
  { apply (@any_step Sample.cfg _ (Invoke call_destroy)); [|exact I].
    apply reachable_is_any, bootstrap_reachable, sample_world_ok. }
  clearbody m. split; [exact Hpc|].
  apply (@canAutoplay_at_any_time Sample.cfg m Hr). exact Hpc.
Defined.

(** ** Subscribers *)

Lemma event_eqb_eq (a b : EventName) : event_eqb a b = true <-> a = b.
Proof.
  destruct a, b; cbn; try (split; [discriminate | discriminate]);
    try (split; reflexivity).
  rewrite String.eqb_eq. split; [now intros -> | now intros [= ->]].
Qed.

Lemma event_eqb_refl (a : EventName) : event_eqb a a = true.
Proof. now apply event_eqb_eq. Qed.

Lemma heard_app (name : EventName) (l1 l2 : list Listener) :
  heard name (l1 ++ l2) = heard name l1 ++ heard name l2.
Proof.
  unfold heard. now rewrite filter_app, map_app.
Qed.

Lemma after_emit_app (name : EventName) (l1 l2 : list Listener) :
  after_emit name (l1 ++ l2) = after_emit name l1 ++ after_emit name l2.
Proof. apply filter_app. Qed.

Lemma after_emit_again (name : EventName) (l : list Listener) :
  after_emit name (after_emit name l) = after_emit name l.
Proof.
  unfold after_emit. induction l as [|x l IH]; [reflexivity|].
  cbn. destruct (negb (listens name x && l_once x)) eqn:E; cbn;
    rewrite ?E, IH; reflexivity.
Qed.

(** Emitting one event leaves the subscribers of every other event. *)
Lemma heard_after_emit_other (a b : EventName) (l : list Listener) :
  event_eqb a b = false -> heard a (after_emit b l) = heard a l.
Proof.
  intros Hab. unfold heard, after_emit.
  induction l as [|x l IH]; [reflexivity|].
  cbn. destruct (listens b x) eqn:Eb; cbn.
  - assert (Ea : listens a x = false).
    { unfold listens in *. apply event_eqb_eq in Eb. rewrite Eb.
      destruct (event_eqb b a) eqn:E; [|reflexivity].
      apply event_eqb_eq in E. rewrite E, event_eqb_refl in Hab.
      discriminate Hab. }
    destruct (l_once x); cbn; rewrite Ea; exact IH.
  - destruct (listens a x); cbn; now rewrite IH.
Qed.

Lemma heard_one (name : EventName) (cb : nat) (o : bool) :
  heard name [{| l_event := name; l_cb := cb; l_once := o |}] = [cb].
Proof.
  unfold heard, listens. cbn. now rewrite event_eqb_refl.
Qed.

Lemma after_emit_one (name : EventName) (cb : nat) (o : bool) :
  after_emit name [{| l_event := name; l_cb := cb; l_once := o |}] =
  if o then [] else [{| l_event := name; l_cb := cb; l_once := o |}].
Proof.
  unfold after_emit, listens. cbn. rewrite event_eqb_refl. now destruct o.
Qed.

(** A callback registered with [once] is called by the next emission of
    its event, after the callbacks registered before it, and by no later
    one; a callback registered with [on] is called by every emission. *)
Theorem once_is_heard_once (m : Machine) (name : EventName) (cb : nat)
  (d d' : option Exn) :
  (let m1 := snd (once name cb m) in
   let m2 := snd (emit name d m1) in
   let m3 := snd (emit name d' m2) in
   log m2 = log m ++
            [Emitted name d (heard name (emitter (this m)) ++ [cb])] /\
   log m3 = log m2 ++
            [Emitted name d'
                     (heard name (after_emit name (emitter (this m))))] /\
   emitter (this m3) = after_emit name (emitter (this m))) /\
  (let m1 := snd (on name cb m) in
   let m2 := snd (emit name d m1) in
   let m3 := snd (emit name d' m2) in
   log m2 = log m ++
            [Emitted name d (heard name (emitter (this m)) ++ [cb])] /\
   log m3 = log m2 ++
            [Emitted name d'
                     (heard name (after_emit name (emitter (this m))) ++ [cb])]).
Proof.
  destruct m as [[c k en ct p md f x em] lg q ph].
  split; cbv zeta; rewrite !emit_spec;
    unfold once, on, bind, get, update; cbn [this log emitter snd fst
    set_emitter pc phase];
    rewrite !after_emit_app, !heard_app, !after_emit_one, !heard_one,
      ?app_nil_r, ?after_emit_again;
    repeat match goal with |- _ /\ _ => split end; reflexivity.
Qed.

Lemma remove_one (name : EventName) (cb : nat) (o : bool)
  (ls : list Listener) :
  filter (fun l => negb (listens name l && Nat.eqb (l_cb l) cb))
         (ls ++ [{| l_event := name; l_cb := cb; l_once := o |}]) =
  filter (fun l => negb (listens name l && Nat.eqb (l_cb l) cb)) ls.
Proof.
  rewrite filter_app. cbn. unfold listens at 2. cbn.
  rewrite event_eqb_refl, Nat.eqb_refl. cbn. apply app_nil_r.
Qed.

(** [removeListener(name, callback)] takes off every registration of the
    callback for that event, by [on] or by [once], so that registering and
    removing is the same as removing; after it the callback is not called
    for that event, and the subscribers of the other events are the
    same. *)
Theorem removeListener_after_on (m : Machine) (name : EventName) (cb : nat) :
  snd (removeListener name cb (snd (on name cb m))) =
    snd (removeListener name cb m) /\
  snd (removeListener name cb (snd (once name cb m))) =
    snd (removeListener name cb m) /\
  ~ In cb (heard name (emitter (this (snd (removeListener name cb m))))) /\
  (forall other, event_eqb other name = false ->
     heard other (emitter (this (snd (removeListener name cb m)))) =
     heard other (emitter (this m))).
Proof.
  destruct m as [[c k en ct p md f x em] lg q ph].
  unfold removeListener, on, once, bind, get, update.
  cbn [this log emitter snd fst set_emitter pc phase].
  rewrite !remove_one.
  repeat match goal with |- _ /\ _ => split end; try reflexivity.
  - unfold heard. rewrite in_map_iff. intros (l & Hcb & Hin).
    apply filter_In in Hin. destruct Hin as [Hin Hl].
    apply filter_In in Hin. destruct Hin as [_ Hn].
    rewrite Hl, Hcb, Nat.eqb_refl in Hn. discriminate Hn.
  - intros other Ho. unfold heard. f_equal.
    induction em as [|l em IH]; [reflexivity|].
    cbn. destruct (listens name l) eqn:En; cbn.
    + assert (Eo : listens other l = false).
      { unfold listens in *. apply event_eqb_eq in En. rewrite En.
        destruct (event_eqb name other) eqn:E; [|reflexivity].
        apply event_eqb_eq in E. rewrite E, event_eqb_refl in Ho.
        discriminate Ho. }
      destruct (Nat.eqb (l_cb l) cb); cbn; rewrite Eo; exact IH.
    + destruct (listens other l); cbn; now rewrite IH.
Qed.

(** ** Teardown after a bootstrap, and too early *)

(** After a bootstrap that ended in [Ready] or in [Error], [destroy()]
    returns normally; every callback that subscribed to the destroy event
    before the bootstrap is called once, then no listener is left; the
    controller has been unloaded once in all after a success, and twice
    after a failure, once by [setError] and once by [destroy()]. *)
Theorem teardown_after_bootstrap
  (cfg : Config) (hs : list Listener) (w : World) :
  let m := bootstrap cfg hs w in
  let m' := snd (destroy m) in
  (successful cfg hs w ->
   fst (destroy m) = Normal tt /\
   events DESTROY (log m') = [Emitted DESTROY None (heard DESTROY hs)] /\
   emitter (this m') = [] /\
   filter is_unload (log m') = [ControllerCall op_unload]) /\
  (forall s, fails_at cfg hs w s ->
   fst (destroy m) = Normal tt /\
   events DESTROY (log m') = [Emitted DESTROY None (heard DESTROY hs)] /\
   emitter (this m') = [] /\
   filter is_unload (log m') =
     [ControllerCall op_unload; ControllerCall op_unload]).
Proof.
  cbv zeta. split.
  - intros Hok.
    destruct (successful_inv Hok)
      as (e & c & x & p & f & md & Hw & Hs & Hl).
    rewrite (bootstrap_loaded hs Hw Hs Hl), destroy_spec.
    cbn [this log controller built fst snd emitter].
    rewrite (@heard_after_emit_other DESTROY READY hs eq_refl).
    destruct cfg as [srcs [|] [|]], e as [[|]];
      repeat match goal with |- _ /\ _ => split end; reflexivity.
  - intros s [fmt Hin Hs | cause Hin Hl].
    + destruct (select_reached _ _ _ Hin) as (e & c & x & p & Hw).
      rewrite (bootstrap_no_media hs Hw Hs), destroy_spec.
      cbn [this log controller built fst snd emitter].
      rewrite (@heard_after_emit_other DESTROY ERROR hs eq_refl).
      destruct cfg as [srcs ap [|]];
        repeat match goal with |- _ /\ _ => split end; reflexivity.
    + destruct (load_reached _ _ _ Hin) as (e & c & x & p & f & md & Hw & Hs).
      rewrite (bootstrap_load_rejected hs Hw Hs Hl), destroy_spec.
      cbn [this log controller built fst snd emitter].
      rewrite (@heard_after_emit_other DESTROY ERROR hs eq_refl).
      destruct cfg as [srcs ap [|]];
        repeat match goal with |- _ /\ _ => split end; reflexivity.
Qed.

Lemma teardown_after_bootstrap_witness :
  let m := bootstrap Sample.cfg Sample.hosts Sample.load_fails in
  let m' := snd (destroy m) in
  fails_at Sample.cfg Sample.hosts Sample.load_fails LoadController /\
  filter is_unload (log m') =
    [ControllerCall op_unload; ControllerCall op_unload].
Proof.
  assert (Hf : fails_at Sample.cfg Sample.hosts Sample.load_fails
                        LoadController).
  { apply (@fails_at_load _ _ _ (Rejection 7)); [|reflexivity].
    vm_compute. tauto. }
  split; [exact Hf|].
  apply (proj2 (@teardown_after_bootstrap Sample.cfg Sample.hosts
                  Sample.load_fails) LoadController Hf).
Defined.

(** [destroy()] before the controller is resolved, for one right after
    construction, throws a [TypeError]; by then it has emitted the destroy
    event and removed every listener, and it leaves the container attached
    with its children. *)
Theorem destroy_too_early (cfg : Config) (m : Machine) (s : Stage) :
  reachable cfg m ->
  pc m = Awaiting s ->
  stage_index s <= stage_index ResolveController ->
  let m' := snd (destroy m) in
  fst (destroy m) = Throw (TypeError "controller") /\
  log m' = log m ++ [Emitted DESTROY None (heard DESTROY (emitter (this m)))] /\
  emitter (this m') = [] /\
  container (this m') = created /\
  pc m' = pc m.
Proof.
  intros Hm Hpc Hle.
  pose proof (reachable_container Hm) as Hk.
  apply reachable_inv in Hm.
  pose proof (@suspended_phase _ _ Hm Hpc) as Hph.
  unfold lifecycle_inv in Hm. unfold container_inv in Hk.
  rewrite Hph in Hk. rewrite Hph, Hpc in Hm.
  destruct Hm as (_ & Hc & _). cbn in Hle. specialize (Hc Hle).
  cbv zeta. rewrite destroy_spec, Hc. cbn.
  repeat match goal with |- _ /\ _ => split end; try reflexivity.
  exact Hk.
Qed.

Lemma destroy_too_early_witness :
  let m := subscribe Sample.hosts (new_Instance Sample.cfg) in
  let m' := snd (destroy m) in
  fst (destroy m) = Throw (TypeError "controller") /\
  log m' = log m ++ [Emitted DESTROY None (heard DESTROY (emitter (this m)))] /\
  emitter (this m') = [] /\
  container (this m') = created /\
  pc m' = pc m.
Proof.
  apply (@destroy_too_early Sample.cfg _ Polyfills).
  - apply subscribe_reachable, reach_new.
  - reflexivity.
  - cbn. lia.
Defined.

(** ** The collaborators a bootstrap calls *)

(** A successful bootstrap calls every awaited operation of the schedule
    exactly once, in order, and keeps every subscriber but those that asked
    for the ready event once; a bootstrap that finds no supported format
    stops after the media selector, and never calls [load()]. *)
Theorem bootstrap_calls (cfg : Config) (hs : list Listener) (w : World) :
  let m := bootstrap cfg hs w in
  (successful cfg hs w ->
   stage_events (log m) = schedule cfg /\
   emitter (this m) = after_emit READY hs) /\
  (fails_at cfg hs w SelectMedia ->
   stage_events (log m) = upto_select cfg /\
   emitter (this m) = after_emit ERROR hs).
Proof.
  cbv zeta. split.
  - intros Hok.
    destruct (successful_inv Hok)
      as (e & c & x & p & f & md & Hw & Hs & Hl).
    rewrite (bootstrap_loaded hs Hw Hs Hl). cbn [this log built emitter].
    split; [|reflexivity].
    destruct cfg as [srcs [|] [|]], e as [[|]]; reflexivity.
  - intros Hf. inversion Hf as [fmt Hin Hs | ]; subst.
    destruct (select_reached _ _ _ Hin) as (e & c & x & p & Hw).
    rewrite (bootstrap_no_media hs Hw Hs). cbn [this log built emitter].
    split; [|reflexivity].
    destruct cfg as [srcs ap [|]]; reflexivity.
Qed.

Lemma bootstrap_calls_witness :
  let m := bootstrap Sample.cfg Sample.hosts Sample.fine in
  successful Sample.cfg Sample.hosts Sample.fine /\
  stage_events (log m) = schedule Sample.cfg /\
  emitter (this m) = after_emit READY Sample.hosts.
Proof.
  split; [reflexivity|].
  apply (proj1 (@bootstrap_calls Sample.cfg Sample.hosts Sample.fine)).
  reflexivity.
Defined.
